(** * Interop boundary of the WebRTC wrapper: video track sources and data channels

    A shallow embedding of
    - [libs/mrwebrtc/src/media/video_track_source.cpp]
      ([VideoSourceAdapter], [VideoTrackSource]), and
    - the data channel interop surface declared in
      [libs/Microsoft.MixedReality.WebRTC.Native/include/data_channel_interop.h].

    The C++ methods of [VideoTrackSource] become programs of a small
    state-and-failure monad that records every externally visible action in a
    trace and lets the native engine deliver frames between two actions of
    the calling thread. *)

From stdpp Require Import base option list gmap sets fin_maps.

Set Default Proof Using "Type".
#[local] Set Warnings "-clear-no-such-hyp".

(** ** Pointers, callbacks, frames *)

(** Addresses of heap objects.  A raw or owning pointer is an [option addr];
    [None] is [nullptr]. *)
Definition addr := positive.

(** Modelled from the spec: [I420AFrameReadyCallback] is declared outside
    the two files; it is a function pointer together with its context
    pointer.  The function pointer [0] is the null pointer. *)
Record Callback := mkCallback {
  callback_fn : Z;
  callback_user_data : Z
}.

#[global] Instance Callback_eq_dec : EqDecision Callback.
Proof. solve_decision. Defined.

(** Modelled from the spec: the test [if (callback)] of a callback; it is
    set when its function pointer is not null. *)
Definition is_set (cb : Callback) : bool := negb (callback_fn cb =? 0)%Z.

Definition null_callback : Callback := mkCallback 0 0.

(** A video frame handed over by the native pipeline. *)
Definition Frame := Z.

(** Modelled from the spec: [rtc::VideoSinkWants] belongs to the native
    engine.  Only [rotation_applied] is touched by this code; the remaining
    fields keep their value-initialised defaults. *)
Record VideoSinkWants := mkVideoSinkWants {
  rotation_applied : bool
}.

#[global] Instance VideoSinkWants_eq_dec : EqDecision VideoSinkWants.
Proof. solve_decision. Defined.

(** [rtc::VideoSinkWants sink_settings{}] *)
Definition default_wants : VideoSinkWants := mkVideoSinkWants false.

(** [sink_settings.rotation_applied = b] *)
Definition set_rotation_applied (b : bool) (w : VideoSinkWants) : VideoSinkWants :=
  mkVideoSinkWants b.

(** Modelled from the spec: [VideoFrameObserver] is defined outside the two
    files; it holds the frame callback it forwards frames to, and a freshly
    constructed observer has none. *)
Record VideoFrameObserver := mkVideoFrameObserver {
  callback_ : Callback
}.

Definition new_observer : VideoFrameObserver := mkVideoFrameObserver null_callback.

(** ** VideoSourceAdapter *)

Module VideoSourceAdapter.

(** The adapter's [observer_] member: a raw [webrtc::ObserverInterface*]. *)
Record t := mk { observer_ : option addr }.

(** [void RegisterObserver(webrtc::ObserverInterface* observer)] *)
Definition RegisterObserver (observer : option addr) (a : t) : t :=
  mk observer.

(** [RTC_DCHECK_EQ(a, b)], a macro of the native engine: aborts when the
    check is compiled in ([dcheck_is_on]) and the operands differ; does
    nothing when compiled out. *)
Definition RTC_DCHECK_EQ (dcheck_is_on : bool) (a b : option addr) : option unit :=
  if dcheck_is_on && negb (bool_decide (a = b)) then None else Some tt.

(** [void UnregisterObserver(webrtc::ObserverInterface* observer)];
    [None] is the abort of a failed check. *)
Definition UnregisterObserver (dcheck_is_on : bool) (observer : option addr)
    (a : t) : option t :=
  _ ← RTC_DCHECK_EQ dcheck_is_on (observer_ a) observer;
  Some (mk None).

End VideoSourceAdapter.

(** ** VideoTrackSource: state *)

(** What one [VideoTrackSource] object and its surroundings look like:
    - [observer_] is the [std::unique_ptr<VideoFrameObserver>] member;
    - [observer_mutex_] is [true] while the [std::mutex] member is held;
    - [source_] is the sink table of the native source the [source_] member
      points to: sink pointer to the wants it was registered with (sinks of
      other owners may be present);
    - [heap] holds the live [VideoFrameObserver] objects created by this
      object, and [freed] the addresses of those already destroyed (addresses
      are never handed out twice). *)
Record State := mkState {
  observer_ : option addr;
  observer_mutex_ : bool;
  source_ : gmap addr VideoSinkWants;
  heap : gmap addr VideoFrameObserver;
  freed : gset addr
}.

(** Everything observable from outside. *)
Inductive Event :=
  | EvLock                                   (* observer_mutex_ acquired *)
  | EvUnlock                                 (* observer_mutex_ released *)
  | EvNew (p : addr)                         (* VideoFrameObserver constructed at p *)
  | EvDelete (p : addr)                      (* VideoFrameObserver at p destroyed *)
  | EvAddOrUpdateSink (p : addr) (w : VideoSinkWants)
  | EvRemoveSink (p : addr)
  | EvObserverSetCallback (p : addr) (cb : Callback)
  | EvFrameCallback (p : addr) (cb : Callback) (f : Frame)
                                             (* frame callback cb invoked *)
  | EvUseAfterFree (p : addr) (f : Frame).   (* frame delivered to a destroyed observer *)

#[global] Instance Event_eq_dec : EqDecision Event.
Proof. solve_decision. Defined.

(** ** Frame delivery by the native engine *)

(** Modelled from the spec: [VideoFrameObserver::OnFrame], as called by the
    native source on the sink pointer [p], invokes the stored callback when
    one is set.  A pointer to a destroyed observer is a use after free; any
    other pointer is a sink of another owner. *)
Definition OnFrame (s : State) (f : Frame) (p : addr) : list Event :=
  match heap s !! p with
  | Some obs =>
      if is_set (callback_ obs) then [EvFrameCallback p (callback_ obs) f] else []
  | None =>
      if bool_decide (p ∈ freed s) then [EvUseAfterFree p f] else []
  end.

(** Modelled from the spec: the native source hands a frame to every
    registered sink, and to no other. *)
Definition deliver_frame (s : State) (f : Frame) : list Event :=
  (map_to_list (source_ s)).*1 ≫= OnFrame s f.

Definition deliver_frames (s : State) (fs : list Frame) : list Event :=
  fs ≫= deliver_frame s.

(** ** The monad of the calling thread *)

(** A configuration: the state, the frames the native thread will deliver
    before each of the next atomic actions of the caller ([pending]), and the
    trace so far, in chronological order. *)
Record Config := mkConfig {
  st : State;
  pending : list (list Frame);
  trace : list Event
}.

Definition M (A : Type) : Type := Config → option (A * Config).

#[global] Instance M_ret : MRet M := λ A x c, Some (x, c).
#[global] Instance M_bind : MBind M := λ A B f m c,
  match m c with
  | Some (x, c') => f x c'
  | None => None
  end.

(** The native thread runs: it delivers the frames scheduled before the next
    action of the caller. *)
Definition yield : M unit := λ c,
  match pending c with
  | [] => Some (tt, c)
  | fs :: rest =>
      Some (tt, mkConfig (st c) rest (trace c ++ deliver_frames (st c) fs))
  end.

(** One atomic action of the caller: the native thread may run first; then
    the action reads and updates the state and emits its events, or fails. *)
Definition perform {A} (act : State → option (A * State * list Event)) : M A :=
  λ c, match act (st c) with
       | Some (x, s', evs) => Some (x, mkConfig s' (pending c) (trace c ++ evs))
       | None => None
       end.

Definition atomic {A} (act : State → option (A * State * list Event)) : M A :=
  yield ;; perform act.

(** Reading a member of [this]; not visible to other threads. *)
Definition read {A} (proj : State → A) : M A := λ c, Some (proj (st c), c).

Definition run {A} (m : M A) (s : State) (sched : list (list Frame)) :
    option (A * Config) :=
  m (mkConfig s sched []).

(** ** VideoTrackSource: the actions its methods are made of *)

(** Updates of single components of the state. *)
Definition set_mutex (held : bool) (s : State) : State :=
  mkState (observer_ s) held (source_ s) (heap s) (freed s).

Definition add_sink (p : addr) (wants : VideoSinkWants) (s : State) : State :=
  mkState (observer_ s) (observer_mutex_ s) (<[p := wants]> (source_ s))
    (heap s) (freed s).

Definition remove_sink (p : addr) (s : State) : State :=
  mkState (observer_ s) (observer_mutex_ s) (delete p (source_ s))
    (heap s) (freed s).

Definition own_new_observer (p : addr) (s : State) : State :=
  mkState (Some p) (observer_mutex_ s) (source_ s)
    (<[p := new_observer]> (heap s)) (freed s).

Definition store_callback (p : addr) (callback : Callback) (s : State) : State :=
  mkState (observer_ s) (observer_mutex_ s) (source_ s)
    (<[p := mkVideoFrameObserver callback]> (heap s)) (freed s).

Definition destroy_observer (p : addr) (s : State) : State :=
  mkState None (observer_mutex_ s) (source_ s)
    (delete p (heap s)) ({[p]} ∪ freed s).

(** [std::lock_guard] constructor on [observer_mutex_].  On a mutex that is
    already held the caller would block; no other caller is running here to
    release it, so this is a failure. *)
Definition mutex_lock : M unit := atomic (λ s,
  if observer_mutex_ s then None else Some (tt, set_mutex true s, [EvLock])).

(** [std::lock_guard] destructor. *)
Definition mutex_unlock : M unit := atomic (λ s,
  Some (tt, set_mutex false s, [EvUnlock])).

(** [std::lock_guard<std::mutex> lock(m)] at the top of a body: the mutex is
    held from there to the end of the body. *)
Definition lock_guard {A} (body : M A) : M A :=
  mutex_lock ;; x ← body; mutex_unlock ;; mret x.

(** The address the allocator hands out: not that of a live or destroyed
    observer nor of a registered sink. *)
Definition fresh_addr (s : State) : addr :=
  fresh (dom (heap s) ∪ freed s ∪ dom (source_ s)).

(** [observer_ = std::make_unique<VideoFrameObserver>()].  The branch that
    runs it has checked that [observer_] is null, so there is no previous
    object to destroy. *)
Definition make_unique_observer : M addr := atomic (λ s,
  let p := fresh_addr s in Some (p, own_new_observer p s, [EvNew p])).

(** Modelled from the spec: [source_->AddOrUpdateSink(sink, wants)] of the
    native engine registers the sink, or updates its wants, in one step. *)
Definition AddOrUpdateSink (p : addr) (wants : VideoSinkWants) : M unit :=
  atomic (λ s, Some (tt, add_sink p wants s, [EvAddOrUpdateSink p wants])).

(** Modelled from the spec: [source_->RemoveSink(sink)] of the native engine
    unregisters the sink in one step. *)
Definition RemoveSink (p : addr) : M unit :=
  atomic (λ s, Some (tt, remove_sink p s, [EvRemoveSink p])).

(** Modelled from the spec: [observer_->SetCallback(callback)] stores the
    callback in the observer [observer_] points to, in one step with respect
    to frame delivery. *)
Definition observer_SetCallback (callback : Callback) : M unit := atomic (λ s,
  p ← observer_ s;
  _ ← heap s !! p;
  Some (tt, store_callback p callback s, [EvObserverSetCallback p callback])).

(** [observer_.reset()], also what the destructor of the [unique_ptr] member
    does: destroys the owned observer, if any, and leaves [observer_] null. *)
Definition observer_reset : M unit := atomic (λ s,
  match observer_ s with
  | None => Some (tt, s, [])
  | Some p =>
      _ ← heap s !! p;
      Some (tt, destroy_observer p s, [EvDelete p])
  end).

(** ** VideoTrackSource: the methods *)

(** The state right after the constructor, for a native source with the sink
    table [sinks]: no observer, mutex free. *)
Definition VideoTrackSource (sinks : gmap addr VideoSinkWants) : State :=
  mkState None false sinks ∅ ∅.

(** [void VideoTrackSource::SetCallback(I420AFrameReadyCallback callback)] *)
Definition SetCallback (callback : Callback) : M unit :=
  lock_guard (
    if is_set callback then
      o ← read observer_;
      match o with
      | None =>
          p ← make_unique_observer;
          let sink_settings := default_wants in
          let sink_settings := set_rotation_applied true sink_settings in
          AddOrUpdateSink p sink_settings
      | Some _ => mret tt
      end ;;
      observer_SetCallback callback
    else
      o ← read observer_;
      match o with
      | Some p => RemoveSink p ;; observer_reset
      | None => mret tt
      end).

(** [VideoTrackSource::~VideoTrackSource()]: the body, then the destruction
    of the [observer_] member. *)
Definition destructor : M unit :=
  o ← read observer_;
  match o with
  | Some p => RemoveSink p
  | None => mret tt
  end ;;
  observer_reset.

(** ** Reading traces *)

(** The frames the native thread delivers before the [i]-th atomic action. *)
Definition slot (sched : list (list Frame)) (i : nat) : list Frame :=
  default [] (head (Nat.iter i tail sched)).

Definition is_use_after_free (e : Event) : bool :=
  match e with EvUseAfterFree _ _ => true | _ => false end.

(** The deliveries to destroyed observers in a trace. *)
Definition use_after_frees (tr : list Event) : list Event :=
  List.filter is_use_after_free tr.

(** Events of the native frame-delivery path. *)
Definition is_delivery (e : Event) : bool :=
  match e with
  | EvFrameCallback _ _ _ | EvUseAfterFree _ _ => true
  | _ => false
  end.

(** The actions of the calling thread in a trace. *)
Definition caller_events (tr : list Event) : list Event :=
  List.filter (λ e, negb (is_delivery e)) tr.

(** The frame-delivery events in a trace. *)
Definition delivery_events (tr : list Event) : list Event :=
  List.filter is_delivery tr.

Definition is_frame_callback (e : Event) : bool :=
  match e with EvFrameCallback _ _ _ => true | _ => false end.

(** The frame callback invocations in a trace. *)
Definition frame_callbacks (tr : list Event) : list Event :=
  List.filter is_frame_callback tr.

Definition is_registration (e : Event) : bool :=
  match e with EvAddOrUpdateSink _ _ => true | _ => false end.

Definition is_removal (e : Event) : bool :=
  match e with EvRemoveSink _ => true | _ => false end.

Definition is_construction (e : Event) : bool :=
  match e with EvNew _ => true | _ => false end.

Definition is_native_call (e : Event) : bool :=
  is_registration e || is_removal e.

(** Number of native sink registrations in a trace. *)
Definition registrations (tr : list Event) : nat :=
  length (List.filter is_registration tr).

(** Number of native sink removals in a trace. *)
Definition removals (tr : list Event) : nat :=
  length (List.filter is_removal tr).

(** Number of observers constructed in a trace. *)
Definition constructions (tr : list Event) : nat :=
  length (List.filter is_construction tr).

(** Walks a trace with the state of the mutex ([held]): [false] as soon as a
    native registration or removal happens while the mutex is held. *)
Fixpoint native_calls_outside_lock (held : bool) (tr : list Event) : bool :=
  match tr with
  | [] => true
  | EvLock :: tr' => native_calls_outside_lock true tr'
  | EvUnlock :: tr' => native_calls_outside_lock false tr'
  | e :: tr' =>
      (if is_native_call e then negb held else true)
      && native_calls_outside_lock held tr'
  end.

(** Walks a trace with the state of the mutex: [true] when every native
    registration or removal happens while the mutex is held. *)
Fixpoint native_calls_under_lock (held : bool) (tr : list Event) : bool :=
  match tr with
  | [] => true
  | EvLock :: tr' => native_calls_under_lock true tr'
  | EvUnlock :: tr' => native_calls_under_lock false tr'
  | e :: tr' =>
      (if is_native_call e then held else true)
      && native_calls_under_lock held tr'
  end.

(** ** The invariant of a track source *)

(** Between two operations: the mutex is free; the live observers are
    exactly the one [observer_] owns, if any; no observer is both live and
    destroyed; and among the observers this object ever created, the
    registered sinks are exactly the live ones. *)
Record Inv (s : State) : Prop := mkInv {
  inv_mutex : observer_mutex_ s = false;
  inv_owned : dom (heap s) = option_to_set (observer_ s);
  inv_heap : dom (heap s) ## freed s;
  inv_registered : dom (source_ s) ∩ (dom (heap s) ∪ freed s) = dom (heap s)
}.

(** ** Operations seen from outside, one after the other *)

Inductive Op :=
  | OpSetCallback (callback : Callback) (sched : list (list Frame))
  | OpDeliver (fs : list Frame).

(** An operation that registers no callback. *)
Definition quiet (o : Op) : bool :=
  match o with
  | OpSetCallback callback _ => negb (is_set callback)
  | OpDeliver _ => true
  end.

Definition run_op (o : Op) (s : State) : option (State * list Event) :=
  match o with
  | OpSetCallback callback sched =>
      r ← run (SetCallback callback) s sched; Some (st r.2, trace r.2)
  | OpDeliver fs => Some (s, deliver_frames s fs)
  end.

Fixpoint run_ops (ops : list Op) (s : State) : option (State * list Event) :=
  match ops with
  | [] => Some (s, [])
  | o :: ops' =>
      r ← run_op o s;
      r' ← run_ops ops' r.1;
      Some (r'.1, r.2 ++ r'.2)
  end.

(** ** Concrete inputs *)

Definition s0 : State := VideoTrackSource ∅.
Definition cb1 : Callback := mkCallback 4096 7.
Definition cb2 : Callback := mkCallback 8192 9.
Definition sched6 : list (list Frame) := [[1]; [2]; [3]; [4]; [5]; [6]]%Z.

(** The state after registering [cb1] on a new track source. *)
Definition s1 : State :=
  mkState (Some 1%positive) false {[1%positive := mkVideoSinkWants true]}
    {[1%positive := mkVideoFrameObserver cb1]} ∅.

(** ** Data channel interop *)

Module DataChannel.

(** [mrsDataChannelHandle]: an opaque key; the registry resolves it to a
    live channel or not at all. *)
Definition mrsDataChannelHandle := positive.

(** Modelled from the spec: [mrsResult] is declared outside the two files;
    these are the result codes the spec names. *)
Inductive mrsResult :=
  | Success | InvalidArgument | InvalidHandle | NotOpen | BufferFull.

(** [struct mrsDataChannelCallbacks]: three function pointers, each with
    its context pointer; [0] is the null pointer. *)
Record mrsDataChannelCallbacks := mkCallbacks {
  message_callback : Z;
  message_user_data : Z;
  buffering_callback : Z;
  buffering_user_data : Z;
  state_callback : Z;
  state_user_data : Z
}.

(** The struct with its default member initialisers. *)
Definition no_callbacks : mrsDataChannelCallbacks := mkCallbacks 0 0 0 0 0 0.

(** All three function pointers are null. *)
Definition silent (cbs : mrsDataChannelCallbacks) : bool :=
  (message_callback cbs =? 0)%Z && (buffering_callback cbs =? 0)%Z
  && (state_callback cbs =? 0)%Z.

(** Modelled from the spec: the lifecycle states of a channel; a channel
    is sendable when open. *)
Inductive ChannelState := Connecting | Open | Closing | Closed.

Definition sendable (st : ChannelState) : bool :=
  match st with Open => true | _ => false end.

(** Modelled from the spec: the native channel object behind a handle,
    with its user-data slot, its stored callbacks, its lifecycle state, its
    numeric id, and the occupancy and capacity of its outbound buffer. *)
Record Channel := mkChannel {
  user_data : Z;
  callbacks : mrsDataChannelCallbacks;
  state : ChannelState;
  id : Z;
  buffered : N;
  limit : N
}.

(** A channel as created: no user data, no callbacks. *)
Definition new_channel (id : Z) (limit : N) : Channel :=
  mkChannel 0 no_callbacks Connecting id 0 limit.

Definition set_user_data (v : Z) (ch : Channel) : Channel :=
  mkChannel v (callbacks ch) (state ch) (id ch) (buffered ch) (limit ch).

Definition set_callbacks (cbs : mrsDataChannelCallbacks) (ch : Channel) : Channel :=
  mkChannel (user_data ch) cbs (state ch) (id ch) (buffered ch) (limit ch).

Definition set_state (st : ChannelState) (ch : Channel) : Channel :=
  mkChannel (user_data ch) (callbacks ch) st (id ch) (buffered ch) (limit ch).

Definition set_buffered (n : N) (ch : Channel) : Channel :=
  mkChannel (user_data ch) (callbacks ch) (state ch) (id ch) n (limit ch).

(** What the native channel reports. *)
Inductive NativeEvent :=
  | MessageReceived (data : Z) (size : N)
  | BufferingChanged (previous current limit : N)
  | StateChanged (st : ChannelState) (id : Z).

(** A call of a caller-supplied function pointer, with the signatures of
    [mrsDataChannelMessageCallback], [mrsDataChannelBufferingCallback] and
    [mrsDataChannelStateCallback]. *)
Inductive Invocation :=
  | CallMessage (fn user_data : Z) (data : Z) (size : N)
  | CallBuffering (fn user_data : Z) (previous current limit : N)
  | CallState (fn user_data : Z) (st : ChannelState) (id : Z).

(** What happens at the boundary: a payload handed to the native channel,
    or a callback invoked for a channel. *)
Inductive Effect :=
  | NativeSend (h : mrsDataChannelHandle) (data : Z) (size : N)
  | Callback (h : mrsDataChannelHandle) (call : Invocation).

(** Modelled from the spec: dispatch of a native event to the stored
    callback of its kind; a null function pointer disables it. *)
Definition dispatch (cbs : mrsDataChannelCallbacks) (ev : NativeEvent) :
    list Invocation :=
  match ev with
  | MessageReceived data size =>
      if (message_callback cbs =? 0)%Z then []
      else [CallMessage (message_callback cbs) (message_user_data cbs) data size]
  | BufferingChanged previous current limit =>
      if (buffering_callback cbs =? 0)%Z then []
      else [CallBuffering (buffering_callback cbs) (buffering_user_data cbs)
              previous current limit]
  | StateChanged st id =>
      if (state_callback cbs =? 0)%Z then []
      else [CallState (state_callback cbs) (state_user_data cbs) st id]
  end.

(** The change a native event makes to the channel it is about. *)
Definition absorb (ev : NativeEvent) (ch : Channel) : Channel :=
  match ev with
  | MessageReceived _ _ => ch
  | BufferingChanged _ current _ => set_buffered current ch
  | StateChanged st _ => set_state st ch
  end.

(** The registry that resolves handles is a finite map from handles to
    channels. *)

(** Modelled from the spec: [mrsDataChannelSetUserData] stores the value
    verbatim in the channel the handle resolves to. *)
Definition mrsDataChannelSetUserData (h : mrsDataChannelHandle) (v : Z)
    (reg : gmap mrsDataChannelHandle Channel) : gmap mrsDataChannelHandle Channel :=
  match reg !! h with
  | Some ch => <[h := set_user_data v ch]> reg
  | None => reg
  end.

(** Modelled from the spec: [mrsDataChannelGetUserData] returns the
    stored value, and the null pointer when the handle does not
    resolve. *)
Definition mrsDataChannelGetUserData (h : mrsDataChannelHandle)
    (reg : gmap mrsDataChannelHandle Channel) : Z :=
  match reg !! h with
  | Some ch => user_data ch
  | None => 0
  end.

(** Modelled from the spec: [mrsDataChannelRegisterCallbacks] replaces
    the three stored pairs in one go. *)
Definition mrsDataChannelRegisterCallbacks (h : mrsDataChannelHandle)
    (cbs : mrsDataChannelCallbacks) (reg : gmap mrsDataChannelHandle Channel) : gmap mrsDataChannelHandle Channel :=
  match reg !! h with
  | Some ch => <[h := set_callbacks cbs ch]> reg
  | None => reg
  end.

(** The native engine reports an event on a channel. *)
Definition native_event (h : mrsDataChannelHandle) (ev : NativeEvent)
    (reg : gmap mrsDataChannelHandle Channel) : gmap mrsDataChannelHandle Channel * list Effect :=
  match reg !! h with
  | Some ch => (<[h := absorb ev ch]> reg, Callback h <$> dispatch (callbacks ch) ev)
  | None => (reg, [])
  end.

(** Modelled from the spec: [mrsDataChannelSendMessage].  Arguments are
    validated before anything else; then the handle is resolved; a
    channel that is not sendable refuses; a payload that would exceed
    the capacity of the outbound buffer closes the channel, which is
    reported through the state callback; otherwise the native channel
    accepts the bytes and the buffering callback sees the growth. *)
Definition mrsDataChannelSendMessage (h : mrsDataChannelHandle) (data : Z)
    (size : N) (reg : gmap mrsDataChannelHandle Channel) : mrsResult * gmap mrsDataChannelHandle Channel * list Effect :=
  if (size =? 0)%N || (data =? 0)%Z then (InvalidArgument, reg, [])
  else
    match reg !! h with
    | None => (InvalidHandle, reg, [])
    | Some ch =>
        if negb (sendable (state ch)) then (NotOpen, reg, [])
        else if (limit ch <? buffered ch + size)%N then
          let r := native_event h (StateChanged Closed (id ch)) reg in
          (BufferFull, r.1, NativeSend h data size :: r.2)
        else
          let r := native_event h
                     (BufferingChanged (buffered ch) (buffered ch + size) (limit ch))
                     reg in
          (Success, r.1, NativeSend h data size :: r.2)
    end.

(** What can happen to the channels, one thing after the other. *)
Inductive Action :=
  | ASetUserData (h : mrsDataChannelHandle) (v : Z)
  | ARegisterCallbacks (h : mrsDataChannelHandle) (cbs : mrsDataChannelCallbacks)
  | ASendMessage (h : mrsDataChannelHandle) (data : Z) (size : N)
  | ANativeEvent (h : mrsDataChannelHandle) (ev : NativeEvent).

Definition apply_action (a : Action) (reg : gmap mrsDataChannelHandle Channel) : gmap mrsDataChannelHandle Channel * list Effect :=
  match a with
  | ASetUserData h v => (mrsDataChannelSetUserData h v reg, [])
  | ARegisterCallbacks h cbs => (mrsDataChannelRegisterCallbacks h cbs reg, [])
  | ASendMessage h data size =>
      let r := mrsDataChannelSendMessage h data size reg in (r.1.2, r.2)
  | ANativeEvent h ev => native_event h ev reg
  end.

Fixpoint run_actions (acts : list Action) (reg : gmap mrsDataChannelHandle Channel) :
    gmap mrsDataChannelHandle Channel * list Effect :=
  match acts with
  | [] => (reg, [])
  | a :: acts' =>
      let r := apply_action a reg in
      let r' := run_actions acts' r.1 in
      (r'.1, r.2 ++ r'.2)
  end.

(** The action stores user data through handle [h]. *)
Definition sets_user_data (h : mrsDataChannelHandle) (a : Action) : bool :=
  match a with
  | ASetUserData h' _ => bool_decide (h' = h)
  | _ => false
  end.

(** The action registers, through handle [h], a set with some callback
    that is not null. *)
Definition registers_callback (h : mrsDataChannelHandle) (a : Action) : bool :=
  match a with
  | ARegisterCallbacks h' cbs => bool_decide (h' = h) && negb (silent cbs)
  | _ => false
  end.

(** The callback invocations for channel [h] among some effects. *)
Definition callbacks_of (h : mrsDataChannelHandle) (effs : list Effect) :
    list Effect :=
  List.filter
    (λ e, match e with Callback h' _ => bool_decide (h' = h) | _ => false end)
    effs.

(** The payloads handed to the native channel among some effects. *)
Definition native_sends (effs : list Effect) : list Effect :=
  List.filter (λ e, match e with NativeSend _ _ _ => true | _ => false end) effs.

(** The user-data slot behind a handle, if the handle resolves. *)
Definition slot_of (h : mrsDataChannelHandle) (reg : gmap mrsDataChannelHandle Channel) :
    option Z :=
  user_data <$> reg !! h.

(** The stored callbacks behind a handle are all null, if the handle
    resolves. *)
Definition silenced (h : mrsDataChannelHandle) (reg : gmap mrsDataChannelHandle Channel) :
    Prop :=
  ∀ ch, reg !! h = Some ch → silent (callbacks ch) = true.

(** The action registers a set of callbacks through handle [h]. *)
Definition registers_on (h : mrsDataChannelHandle) (a : Action) : bool :=
  match a with
  | ARegisterCallbacks h' _ => bool_decide (h' = h)
  | _ => false
  end.

(** A registry with one open channel of capacity 5 KB, for examples. *)
Definition reg1 : gmap mrsDataChannelHandle Channel :=
  {[ 1%positive := mkChannel 0 (mkCallbacks 100 1 200 2 300 3) Open 42 0 5120 ]}.

End DataChannel.

(** ** VideoTrackSource: construction and whole lifetimes *)

(** [ObjectType]: the enumeration is declared outside the two files.  The
    constructor names two of its values; the remaining ones are told apart
    by a number. *)
Inductive ObjectType :=
  | kDeviceVideoTrackSource
  | kExternalVideoTrackSource
  | kOtherObjectType (n : nat).

#[global] Instance ObjectType_eq_dec : EqDecision ObjectType.
Proof. solve_decision. Defined.

(** [RTC_CHECK(cond)], a macro of the native engine: aborts when the
    condition is false, in every build. *)
Definition RTC_CHECK (cond : bool) : option unit :=
  if cond then Some tt else None.

(** [VideoTrackSource::VideoTrackSource(global_factory,
    video_track_source_type, source)].  [source] is the reference handed in:
    [None] when it is null, otherwise the sink table of the native source it
    points to.  The base class [TrackedObject], which receives
    [global_factory], lies outside the two files and has no part in what
    follows.  [None] is the abort of a failed check. *)
Definition VideoTrackSource_ctor (video_track_source_type : ObjectType)
    (source : option (gmap addr VideoSinkWants)) : option State :=
  let source_ := source in
  _ ← RTC_CHECK (bool_decide (is_Some source_));
  _ ← RTC_CHECK (bool_decide (video_track_source_type = kDeviceVideoTrackSource)
                 || bool_decide (video_track_source_type = kExternalVideoTrackSource));
  sinks ← source_;
  Some (VideoTrackSource sinks).

(** The whole life of a track source after its construction: operations,
    then the destructor, with the frames the native thread delivers
    meanwhile. *)
Definition lifetime (ops : list Op) (sched : list (list Frame)) (s : State) :
    option (State * list Event) :=
  r ← run_ops ops s;
  d ← run destructor r.1 sched;
  Some (st d.2, r.2 ++ trace d.2).

(** [1] when an observer is attached, [0] otherwise. *)
Definition attached (s : State) : nat :=
  match observer_ s with Some _ => 1 | None => 0 end.

(** The sinks of the native source other than the observer of this track
    source. *)
Definition other_sinks (s : State) : gmap addr VideoSinkWants :=
  match observer_ s with
  | Some p => delete p (source_ s)
  | None => source_ s
  end.

Definition is_deletion (e : Event) : bool :=
  match e with EvDelete _ => true | _ => false end.

(** Number of observers destroyed in a trace. *)
Definition deletions (tr : list Event) : nat :=
  length (List.filter is_deletion tr).

(** What a stretch of the life of a track source, from state [s] through the
    trace [tr] to state [s'], keeps in balance: the invariant holds at the
    end; no frame reached a destroyed observer; registrations and removals,
    constructions and destructions differ by what is attached at the two
    ends; the sinks of others are as they were. *)
Record Ledger (s : State) (tr : list Event) (s' : State) : Prop := mkLedger {
  ledger_inv : Inv s';
  ledger_safe : use_after_frees tr = [];
  ledger_sinks : registrations tr + attached s = removals tr + attached s';
  ledger_observers : constructions tr + attached s = deletions tr + attached s';
  ledger_others : other_sinks s' = other_sinks s
}.

(** ** VideoSourceAdapter: sequences of calls *)

Inductive AdapterOp :=
  | AdRegister (o : option addr)
  | AdUnregister (o : option addr).

Definition adapter_step (dcheck_is_on : bool) (op : AdapterOp)
    (a : VideoSourceAdapter.t) : option VideoSourceAdapter.t :=
  match op with
  | AdRegister o => Some (VideoSourceAdapter.RegisterObserver o a)
  | AdUnregister o => VideoSourceAdapter.UnregisterObserver dcheck_is_on o a
  end.

Fixpoint adapter_run (dcheck_is_on : bool) (ops : list AdapterOp)
    (a : VideoSourceAdapter.t) : option VideoSourceAdapter.t :=
  match ops with
  | [] => Some a
  | op :: ops' => a' ← adapter_step dcheck_is_on op a; adapter_run dcheck_is_on ops' a'
  end.

(** ** Basic facts about the monad *)

Lemma yield_eq c :
  yield c = Some (tt, mkConfig (st c) (tail (pending c))
                        (trace c ++ deliver_frames (st c) (default [] (head (pending c))))).
Proof.
  unfold yield. destruct c as [s [|fs rest] tr]; simpl; [|done].
  by rewrite app_nil_r.
Qed.

Lemma atomic_eq {A} (act : State → option (A * State * list Event)) c :
  atomic act c =
  match act (st c) with
  | Some (x, s', evs) =>
      Some (x, mkConfig s' (tail (pending c))
                 (trace c ++ deliver_frames (st c) (default [] (head (pending c))) ++ evs))
  | None => None
  end.
Proof.
  unfold atomic, mbind, M_bind. rewrite yield_eq. unfold perform; simpl.
  destruct (act (st c)) as [[[x s'] evs]|]; [|done].
  by rewrite <- app_assoc.
Qed.

Lemma bind_eq {A B} (m : M A) (f : A → M B) c :
  (m ≫= f) c = match m c with Some (x, c') => f x c' | None => None end.
Proof. reflexivity. Qed.

(** ** Basic facts about frame delivery *)

Lemma list_bind_nil {A B} (f : A → list B) (l : list A) :
  (∀ x, x ∈ l → f x = []) → l ≫= f = [].
Proof.
  induction l as [|x l IH]; intros H; [done|].
  rewrite bind_cons, H, IH; [done| |left].
  intros y Hy. apply H. by right.
Qed.

Lemma OnFrame_delivery s f p : Forall (λ e, is_delivery e = true) (OnFrame s f p).
Proof.
  unfold OnFrame. destruct (heap s !! p) as [obs|].
  - destruct (is_set (callback_ obs)); repeat constructor.
  - case_bool_decide; repeat constructor.
Qed.

Lemma deliver_frames_delivery s fs :
  Forall (λ e, is_delivery e = true) (deliver_frames s fs).
Proof.
  unfold deliver_frames. induction fs as [|f fs IH]; [constructor|].
  rewrite bind_cons. apply Forall_app; split; [|done].
  unfold deliver_frame. induction ((map_to_list (source_ s)).*1) as [|p l IHl];
    [constructor|].
  rewrite bind_cons. apply Forall_app; split; [apply OnFrame_delivery | done].
Qed.

Lemma caller_events_app tr1 tr2 :
  caller_events (tr1 ++ tr2) = caller_events tr1 ++ caller_events tr2.
Proof. apply List.filter_app. Qed.

Lemma caller_events_delivery tr :
  Forall (λ e, is_delivery e = true) tr → caller_events tr = [].
Proof.
  induction 1 as [|e tr He _ IH]; [done|].
  unfold caller_events in *; simpl. by rewrite He.
Qed.

Lemma caller_events_deliver s fs : caller_events (deliver_frames s fs) = [].
Proof. apply caller_events_delivery, deliver_frames_delivery. Qed.

(** A frame reaches no observer of this object when none of them, live or
    destroyed, is registered. *)
Lemma deliver_frames_quiet s fs :
  dom (source_ s) ## dom (heap s) ∪ freed s → deliver_frames s fs = [].
Proof.
  intros Hdisj. unfold deliver_frames. apply list_bind_nil; intros f _.
  unfold deliver_frame. apply list_bind_nil; intros p Hp.
  apply list_elem_of_fmap in Hp as [[q w] [-> Hq]]; simpl.
  apply elem_of_map_to_list in Hq.
  assert (q ∈ dom (source_ s)) as Hdom by (apply elem_of_dom; eauto).
  unfold OnFrame.
  destruct (heap s !! q) as [obs|] eqn:Hheap.
  - exfalso. apply (Hdisj q Hdom). apply elem_of_union_l, elem_of_dom; eauto.
  - rewrite bool_decide_eq_false_2; [done|].
    intros Hfreed. apply (Hdisj q Hdom). by apply elem_of_union_r.
Qed.

(** ** What one call does, under any schedule of the native thread *)

(** Unfolds one atomic action of a run. *)
Ltac proj_simpl :=
  cbn [st pending trace observer_ observer_mutex_ source_ heap freed
       set_mutex add_sink remove_sink own_new_observer store_callback
       destroy_observer].

Ltac step := rewrite ?bind_eq, atomic_eq; proj_simpl.

Ltac finish_run :=
  cbn [mret M_ret]; rewrite <- ?app_assoc; reflexivity.

(** Detached, non-null callback: construct, register, store. *)
Lemma SetCallback_attach s sched cb :
  is_set cb = true → observer_ s = None → observer_mutex_ s = false →
  let p := fresh_addr s in
  let sA := set_mutex true s in
  let sB := own_new_observer p sA in
  let sC := add_sink p (mkVideoSinkWants true) sB in
  let sD := store_callback p cb sC in
  run (SetCallback cb) s sched =
  Some (tt, mkConfig (set_mutex false sD) (Nat.iter 5 tail sched)
    (deliver_frames s (slot sched 0) ++ [EvLock] ++
     deliver_frames sA (slot sched 1) ++ [EvNew p] ++
     deliver_frames sB (slot sched 2) ++ [EvAddOrUpdateSink p (mkVideoSinkWants true)] ++
     deliver_frames sC (slot sched 3) ++ [EvObserverSetCallback p cb] ++
     deliver_frames sD (slot sched 4) ++ [EvUnlock])).
Proof.
  intros Hcb Hobs Hmut p sA sB sC sD.
  unfold run, SetCallback, lock_guard, mutex_lock. rewrite Hcb.
  step. rewrite Hmut.
  rewrite !bind_eq. unfold read at 1. proj_simpl. rewrite Hobs.
  unfold make_unique_observer. step.
  unfold AddOrUpdateSink. step.
  unfold observer_SetCallback. step.
  cbn [mbind option_bind]. rewrite lookup_insert_eq. cbn [mbind option_bind].
  unfold mutex_unlock. step. finish_run.
Qed.

(** Attached, non-null callback: only the stored callback changes. *)
Lemma SetCallback_update s sched cb p :
  is_set cb = true → observer_ s = Some p → is_Some (heap s !! p) →
  observer_mutex_ s = false →
  let sA := set_mutex true s in
  let sB := store_callback p cb sA in
  run (SetCallback cb) s sched =
  Some (tt, mkConfig (set_mutex false sB) (Nat.iter 3 tail sched)
    (deliver_frames s (slot sched 0) ++ [EvLock] ++
     deliver_frames sA (slot sched 1) ++ [EvObserverSetCallback p cb] ++
     deliver_frames sB (slot sched 2) ++ [EvUnlock])).
Proof.
  intros Hcb Hobs [obs Hlive] Hmut sA sB.
  unfold run, SetCallback, lock_guard, mutex_lock. rewrite Hcb.
  step. rewrite Hmut.
  rewrite !bind_eq. unfold read at 1. proj_simpl. rewrite Hobs.
  rewrite bind_eq. cbn [mret M_ret].
  unfold observer_SetCallback. step. rewrite Hobs.
  cbn [mbind option_bind]. rewrite Hlive. cbn [mbind option_bind].
  unfold mutex_unlock. step. finish_run.
Qed.

(** Attached, null callback: unregister, then destroy. *)
Lemma SetCallback_detach s sched cb p :
  is_set cb = false → observer_ s = Some p → is_Some (heap s !! p) →
  observer_mutex_ s = false →
  let sA := set_mutex true s in
  let sB := remove_sink p sA in
  let sC := destroy_observer p sB in
  run (SetCallback cb) s sched =
  Some (tt, mkConfig (set_mutex false sC) (Nat.iter 4 tail sched)
    (deliver_frames s (slot sched 0) ++ [EvLock] ++
     deliver_frames sA (slot sched 1) ++ [EvRemoveSink p] ++
     deliver_frames sB (slot sched 2) ++ [EvDelete p] ++
     deliver_frames sC (slot sched 3) ++ [EvUnlock])).
Proof.
  intros Hcb Hobs [obs Hlive] Hmut sA sB sC.
  unfold run, SetCallback, lock_guard, mutex_lock. rewrite Hcb.
  step. rewrite Hmut.
  rewrite !bind_eq. unfold read at 1. proj_simpl. rewrite Hobs.
  unfold RemoveSink. step.
  unfold observer_reset. rewrite atomic_eq. proj_simpl. rewrite Hobs.
  cbn [mbind option_bind]. rewrite Hlive. cbn [mbind option_bind].
  unfold mutex_unlock. step. finish_run.
Qed.

Lemma set_mutex_id s : observer_mutex_ s = false → set_mutex false (set_mutex true s) = s.
Proof. destruct s; simpl; by intros ->. Qed.

(** Detached, null callback: nothing but the lock. *)
Lemma SetCallback_noop s sched cb :
  is_set cb = false → observer_ s = None → observer_mutex_ s = false →
  run (SetCallback cb) s sched =
  Some (tt, mkConfig s (Nat.iter 2 tail sched)
    (deliver_frames s (slot sched 0) ++ [EvLock] ++
     deliver_frames (set_mutex true s) (slot sched 1) ++ [EvUnlock])).
Proof.
  intros Hcb Hobs Hmut.
  unfold run, SetCallback, lock_guard, mutex_lock. rewrite Hcb.
  step. rewrite Hmut.
  rewrite !bind_eq. unfold read at 1. proj_simpl. rewrite Hobs.
  cbn [mret M_ret].
  unfold mutex_unlock. step.
  fold (set_mutex false (set_mutex true s)). rewrite set_mutex_id by done.
  finish_run.
Qed.

(** Destruction with an observer attached: unregister, then destroy. *)
Lemma destructor_attached s sched p :
  observer_ s = Some p → is_Some (heap s !! p) →
  let sA := remove_sink p s in
  run destructor s sched =
  Some (tt, mkConfig (destroy_observer p sA) (Nat.iter 2 tail sched)
    (deliver_frames s (slot sched 0) ++ [EvRemoveSink p] ++
     deliver_frames sA (slot sched 1) ++ [EvDelete p])).
Proof.
  intros Hobs [obs Hlive] sA.
  unfold run, destructor.
  rewrite !bind_eq. unfold read at 1. proj_simpl. rewrite Hobs.
  unfold RemoveSink. step.
  unfold observer_reset. rewrite atomic_eq. proj_simpl. rewrite Hobs.
  cbn [mbind option_bind]. rewrite Hlive. cbn [mbind option_bind].
  finish_run.
Qed.

(** Destruction with no observer: no action of the caller at all. *)
Lemma destructor_detached s sched :
  observer_ s = None →
  run destructor s sched =
  Some (tt, mkConfig s (tail sched) (deliver_frames s (slot sched 0))).
Proof.
  intros Hobs.
  unfold run, destructor.
  rewrite !bind_eq. unfold read at 1. proj_simpl. rewrite Hobs.
  rewrite bind_eq. cbn [mret M_ret].
  unfold observer_reset. rewrite atomic_eq. proj_simpl. rewrite Hobs.
  rewrite app_nil_r. reflexivity.
Qed.

(** ** Facts about traces *)

Lemma delivery_events_app tr1 tr2 :
  delivery_events (tr1 ++ tr2) = delivery_events tr1 ++ delivery_events tr2.
Proof. apply List.filter_app. Qed.

Lemma use_after_frees_app tr1 tr2 :
  use_after_frees (tr1 ++ tr2) = use_after_frees tr1 ++ use_after_frees tr2.
Proof. apply List.filter_app. Qed.

Lemma frame_callbacks_app tr1 tr2 :
  frame_callbacks (tr1 ++ tr2) = frame_callbacks tr1 ++ frame_callbacks tr2.
Proof. apply List.filter_app. Qed.

Lemma frame_callbacks_of_delivery tr : delivery_events tr = [] → frame_callbacks tr = [].
Proof.
  unfold delivery_events, frame_callbacks.
  induction tr as [|e tr IH]; [done|]. simpl.
  destruct e; simpl; try done; auto.
Qed.

Lemma registrations_app tr1 tr2 :
  registrations (tr1 ++ tr2) = registrations tr1 + registrations tr2.
Proof. unfold registrations. by rewrite List.filter_app, length_app. Qed.

Lemma removals_app tr1 tr2 : removals (tr1 ++ tr2) = removals tr1 + removals tr2.
Proof. unfold removals. by rewrite List.filter_app, length_app. Qed.

Lemma constructions_app tr1 tr2 :
  constructions (tr1 ++ tr2) = constructions tr1 + constructions tr2.
Proof. unfold constructions. by rewrite List.filter_app, length_app. Qed.

(** Counting the actions of the caller ignores what the native thread does
    in between. *)
Lemma filter_caller_events (P : Event → bool) tr :
  (∀ e, is_delivery e = true → P e = false) →
  List.filter P (caller_events tr) = List.filter P tr.
Proof.
  intros HP. unfold caller_events. induction tr as [|e tr IH]; [done|]. simpl.
  destruct (is_delivery e) eqn:He; simpl.
  - by rewrite (HP e He).
  - by rewrite IH.
Qed.

Lemma registrations_caller_events tr :
  registrations (caller_events tr) = registrations tr.
Proof.
  unfold registrations. rewrite filter_caller_events; [done|]. by intros [].
Qed.

Lemma removals_caller_events tr : removals (caller_events tr) = removals tr.
Proof.
  unfold removals. rewrite filter_caller_events; [done|]. by intros [].
Qed.

Lemma constructions_caller_events tr :
  constructions (caller_events tr) = constructions tr.
Proof.
  unfold constructions. rewrite filter_caller_events; [done|]. by intros [].
Qed.

Lemma native_calls_under_lock_caller_events held tr :
  native_calls_under_lock held (caller_events tr) = native_calls_under_lock held tr.
Proof.
  revert held. induction tr as [|e tr IH]; intros held; [done|].
  destruct e; simpl; rewrite ?IH; done.
Qed.

(** Normalises the caller's part of a trace built from deliveries and single
    events. *)
Ltac caller_trace :=
  rewrite ?caller_events_app, ?caller_events_deliver; cbn [caller_events List.filter
    is_delivery negb app].

(** ** Facts about the invariant *)

Lemma Inv_init sinks : Inv (VideoTrackSource sinks).
Proof. split; simpl; [done|set_solver..]. Qed.

Lemma Inv_live s p : Inv s → observer_ s = Some p → is_Some (heap s !! p).
Proof.
  intros HI Hobs. apply elem_of_dom. rewrite (inv_owned s HI), Hobs. set_solver.
Qed.

Lemma Inv_at_most_one s p q :
  Inv s → p ∈ dom (heap s) → q ∈ dom (heap s) → p = q.
Proof.
  intros HI. rewrite (inv_owned s HI). destruct (observer_ s); set_solver.
Qed.

Lemma Inv_exists_iff_registered s p :
  Inv s → p ∈ dom (heap s) ∪ freed s → (p ∈ dom (heap s) ↔ p ∈ dom (source_ s)).
Proof.
  intros HI Hp. pose proof (inv_registered s HI). pose proof (inv_heap s HI). set_solver.
Qed.

Lemma Inv_no_dangling s : Inv s → dom (source_ s) ## freed s.
Proof.
  intros HI. pose proof (inv_registered s HI). pose proof (inv_heap s HI). set_solver.
Qed.

Lemma Inv_detached_quiet s :
  Inv s → observer_ s = None → dom (source_ s) ## dom (heap s) ∪ freed s.
Proof.
  intros HI Hobs. pose proof (inv_registered s HI). pose proof (inv_owned s HI) as Ho.
  rewrite Hobs in Ho. simpl in Ho. set_solver.
Qed.

Lemma fresh_addr_spec s :
  (fresh_addr s ∉ dom (heap s)) ∧ (fresh_addr s ∉ freed s) ∧
  (fresh_addr s ∉ dom (source_ s)).
Proof.
  pose proof (is_fresh (dom (heap s) ∪ freed s ∪ dom (source_ s))) as H.
  fold (fresh_addr s) in H. set_solver.
Qed.

Lemma Inv_attached s cb :
  Inv s → observer_ s = None →
  let p := fresh_addr s in
  Inv (set_mutex false (store_callback p cb
         (add_sink p (mkVideoSinkWants true) (own_new_observer p (set_mutex true s))))).
Proof.
  intros HI Hobs p. destruct (fresh_addr_spec s) as (Hh & Hf & Hs). fold p in Hh, Hf, Hs.
  pose proof (inv_owned s HI) as Ho. rewrite Hobs in Ho. simpl in Ho.
  pose proof (inv_heap s HI). pose proof (inv_registered s HI).
  split; simpl; [done|..]; rewrite ?dom_insert_L; set_solver.
Qed.

Lemma Inv_updated s cb p :
  Inv s → observer_ s = Some p →
  Inv (set_mutex false (store_callback p cb (set_mutex true s))).
Proof.
  intros HI Hobs.
  pose proof (inv_owned s HI) as Ho. rewrite Hobs in Ho. simpl in Ho.
  pose proof (inv_heap s HI). pose proof (inv_registered s HI).
  split; simpl; [done|..]; rewrite ?dom_insert_L, ?Hobs; set_solver.
Qed.

Lemma Inv_destroyed s p :
  Inv s → observer_ s = Some p → Inv (destroy_observer p (remove_sink p s)).
Proof.
  intros HI Hobs.
  pose proof (inv_owned s HI) as Ho. rewrite Hobs in Ho. simpl in Ho.
  pose proof (inv_heap s HI). pose proof (inv_registered s HI).
  split; simpl; [by apply inv_mutex|..]; rewrite ?dom_delete_L; set_solver.
Qed.

(** The invariant reads the mutex only to see that it is free. *)
Lemma Inv_fields s s' :
  Inv s → observer_mutex_ s' = false → observer_ s' = observer_ s →
  source_ s' = source_ s → heap s' = heap s → freed s' = freed s → Inv s'.
Proof.
  intros [? ? ? ?] Hm Ho Hs Hh Hf. split; [done|..]; by rewrite ?Ho, ?Hs, ?Hh, ?Hf.
Qed.

(** The invariant is kept by [SetCallback], whatever its argument and
    whatever the native thread does meanwhile; the call always returns. *)
Lemma SetCallback_Inv s cb sched :
  Inv s → ∃ c', run (SetCallback cb) s sched = Some (tt, c') ∧ Inv (st c').
Proof.
  intros HI. pose proof (inv_mutex s HI) as Hmut.
  destruct (is_set cb) eqn:Hcb, (observer_ s) as [p|] eqn:Hobs.
  - eexists; split; [apply SetCallback_update; eauto using Inv_live|].
    by apply Inv_updated.
  - eexists; split; [by apply SetCallback_attach|]. by apply Inv_attached.
  - eexists; split; [apply SetCallback_detach; eauto using Inv_live|].
    apply (Inv_fields (destroy_observer p (remove_sink p s))); [|done..].
    by apply Inv_destroyed.
  - eexists; split; [by apply SetCallback_noop|]. done.
Qed.

(** The invariant is kept by the destructor. *)
Lemma destructor_Inv s sched :
  Inv s → ∃ c', run destructor s sched = Some (tt, c') ∧ Inv (st c').
Proof.
  intros HI. destruct (observer_ s) as [p|] eqn:Hobs.
  - eexists; split; [apply destructor_attached; eauto using Inv_live|].
    by apply Inv_destroyed.
  - eexists; split; [by apply destructor_detached|]. done.
Qed.

(** ** Frame delivery around a detach *)

(** No frame reaches a destroyed observer as long as none is registered. *)
Lemma deliver_frames_no_use_after_free s fs :
  dom (source_ s) ## freed s → use_after_frees (deliver_frames s fs) = [].
Proof.
  intros Hdisj. unfold deliver_frames.
  induction fs as [|f fs IH]; [done|].
  rewrite bind_cons, use_after_frees_app, IH, app_nil_r.
  unfold deliver_frame.
  assert (∀ l : list addr, (∀ p, p ∈ l → p ∈ dom (source_ s)) →
          use_after_frees (l ≫= OnFrame s f) = []) as Hl.
  { induction l as [|p l IHl]; intros Hin; [done|].
    rewrite bind_cons, use_after_frees_app, IHl, app_nil_r.
    - unfold OnFrame. destruct (heap s !! p) as [obs|].
      + by destruct (is_set (callback_ obs)).
      + rewrite bool_decide_eq_false_2; [done|].
        intros Hp. apply (Hdisj p); [|done]. apply Hin. by left.
    - intros q Hq. apply Hin. by right. }
  apply Hl. intros p Hp.
  apply list_elem_of_fmap in Hp as [[q w] [-> Hq]]; simpl.
  apply elem_of_map_to_list in Hq. apply elem_of_dom; eauto.
Qed.

Lemma detaching_quiet s p held :
  Inv s → observer_ s = Some p →
  let sB := remove_sink p (set_mutex held s) in
  dom (source_ sB) ## dom (heap sB) ∪ freed sB.
Proof.
  intros HI Hobs. simpl.
  pose proof (inv_owned s HI) as Ho. rewrite Hobs in Ho. simpl in Ho.
  pose proof (inv_heap s HI). pose proof (inv_registered s HI).
  rewrite dom_delete_L. set_solver.
Qed.

Lemma detached_quiet s p held :
  Inv s → observer_ s = Some p →
  let sC := destroy_observer p (remove_sink p (set_mutex held s)) in
  dom (source_ sC) ## dom (heap sC) ∪ freed sC.
Proof.
  intros HI Hobs. simpl.
  pose proof (inv_owned s HI) as Ho. rewrite Hobs in Ho. simpl in Ho.
  pose proof (inv_heap s HI). pose proof (inv_registered s HI).
  rewrite !dom_delete_L. set_solver.
Qed.

(** Once detached, nothing the native thread delivers and no further call
    with a null callback invokes anything. *)
Lemma quiet_ops_silent ops : ∀ s,
  Inv s → observer_ s = None → forallb quiet ops = true →
  ∃ s' tr, run_ops ops s = Some (s', tr) ∧ delivery_events tr = [] ∧
           Inv s' ∧ observer_ s' = None.
Proof.
  induction ops as [|o ops IH]; intros s HI Hobs Hq.
  - by exists s, [].
  - simpl in Hq. apply andb_true_iff in Hq as [Ho Hq].
    pose proof (Inv_detached_quiet s HI Hobs) as Hdisj.
    destruct o as [cb sched|fs]; simpl in Ho.
    + apply negb_true_iff in Ho.
      destruct (IH s HI Hobs Hq) as (s' & tr & Hrun & Htr & HI' & Hobs').
      exists s', ((deliver_frames s (slot sched 0) ++ [EvLock] ++
        deliver_frames (set_mutex true s) (slot sched 1) ++ [EvUnlock]) ++ tr).
      split; [|split; [|done]].
      * cbn [run_ops run_op]. rewrite (SetCallback_noop s sched cb Ho Hobs (inv_mutex s HI)).
        cbn [mbind option_bind snd st trace fst]. by rewrite Hrun.
      * rewrite delivery_events_app, Htr, app_nil_r.
        by rewrite !deliver_frames_quiet.
    + destruct (IH s HI Hobs Hq) as (s' & tr & Hrun & Htr & HI' & Hobs').
      exists s', (deliver_frames s fs ++ tr). split; [|split; [|done]].
      * cbn [run_ops run_op mbind option_bind fst snd]. by rewrite Hrun.
      * by rewrite deliver_frames_quiet.
Qed.

(** Every state a track source reaches after its construction satisfies the
    invariant, and every operation on it returns. *)
Lemma run_ops_Inv ops : ∀ s,
  Inv s → ∃ s' tr, run_ops ops s = Some (s', tr) ∧ Inv s'.
Proof.
  induction ops as [|o ops IH]; intros s HI.
  - by exists s, [].
  - destruct o as [cb sched|fs]; cbn [run_ops run_op].
    + destruct (SetCallback_Inv s cb sched HI) as (c' & Hrun & HI').
      destruct (IH _ HI') as (s' & tr & Hops & HI'').
      rewrite Hrun. cbn [mbind option_bind fst snd]. rewrite Hops.
      eexists _, _. by split.
    + destruct (IH _ HI) as (s' & tr & Hops & HI').
      cbn [mbind option_bind fst snd]. rewrite Hops.
      eexists _, _. by split.
Qed.

(** ** The states used as concrete inputs *)

Lemma Inv_s0 : Inv s0.
Proof. apply Inv_init. Qed.

Lemma Inv_s1 : Inv s1.
Proof.
  split; simpl; [done|..]; rewrite ?dom_singleton_L; set_solver.
Qed.

Example SetCallback_s0_reaches_s1 :
  run (SetCallback cb1) s0 [] =
  Some (tt, mkConfig s1 []
    [EvLock; EvNew 1%positive; EvAddOrUpdateSink 1%positive (mkVideoSinkWants true);
     EvObserverSetCallback 1%positive cb1; EvUnlock]).
Proof. vm_compute. reflexivity. Qed.

Example frames_reach_the_callback :
  deliver_frames s1 [10; 11]%Z =
  [EvFrameCallback 1%positive cb1 10%Z; EvFrameCallback 1%positive cb1 11%Z].
Proof. vm_compute. reflexivity. Qed.

(** ** Properties of [VideoTrackSource] *)

(** C1. For every track source in a state satisfying the invariant, a call
    [SetCallback] with a null callback returns, whatever frames the native
    thread delivers between its atomic actions.  If an observer was attached,
    the call ends with [RemoveSink] on it, its destruction and the release of
    the mutex, with no frame event after the [RemoveSink]: the observer is
    unregistered from the native sink before the call returns.  After the
    call, no frame callback is invoked by any sequence of frame deliveries and
    further null-callback calls, that is, until a later non-null
    registration.  Frame delivery is atomic with respect to the sink table of
    the native source, as the native engine synchronises it. *)
Theorem C1_detach_stops_frame_callbacks s cb sched ops :
  Inv s → is_set cb = false → forallb quiet ops = true →
  ∃ c',
    run (SetCallback cb) s sched = Some (tt, c') ∧
    (∀ p, observer_ s = Some p →
       (∃ tr, trace c' = tr ++ [EvRemoveSink p; EvDelete p; EvUnlock]) ∧
       (p ∉ dom (source_ (st c')))) ∧
    ∃ s' tr, run_ops ops (st c') = Some (s', tr) ∧ frame_callbacks tr = [].
Proof.
  intros HI Hcb Hq. pose proof (inv_mutex s HI) as Hmut.
  destruct (observer_ s) as [p|] eqn:Hobs.
  - eexists; split; [apply SetCallback_detach; eauto using Inv_live|].
    split.
    + intros q [= <-]. split.
      * rewrite (deliver_frames_quiet (remove_sink p (set_mutex true s)))
          by by apply detaching_quiet.
        rewrite (deliver_frames_quiet (destroy_observer p _))
          by by apply detached_quiet.
        exists (deliver_frames s (slot sched 0) ++ [EvLock] ++
                deliver_frames (set_mutex true s) (slot sched 1)).
        cbn [trace]. rewrite <- !app_assoc. reflexivity.
      * cbn [st]. simpl. rewrite dom_delete_L. set_solver.
    + cbn [st].
      assert (Inv (set_mutex false (destroy_observer p (remove_sink p (set_mutex true s)))))
        as HI'.
      { apply (Inv_fields (destroy_observer p (remove_sink p s))); [|done..].
        by apply Inv_destroyed. }
      destruct (quiet_ops_silent ops _ HI' eq_refl Hq) as (s' & tr & Hrun & Htr & _).
      exists s', tr. split; [done|]. by apply frame_callbacks_of_delivery.
  - eexists; split; [by apply SetCallback_noop|]. split; [done|]. cbn [st].
    destruct (quiet_ops_silent ops _ HI Hobs Hq) as (s' & tr & Hrun & Htr & _).
    exists s', tr. split; [done|]. by apply frame_callbacks_of_delivery.
Qed.

Lemma C1_detach_stops_frame_callbacks_witness :
  Inv s1 ∧ is_set null_callback = false ∧
  forallb quiet [OpDeliver [7; 8]%Z; OpSetCallback null_callback sched6; OpDeliver [9]%Z] = true ∧
  ∃ c',
    run (SetCallback null_callback) s1 sched6 = Some (tt, c') ∧
    (∀ p, observer_ s1 = Some p →
       (∃ tr, trace c' = tr ++ [EvRemoveSink p; EvDelete p; EvUnlock]) ∧
       (p ∉ dom (source_ (st c')))) ∧
    ∃ s' tr,
      run_ops [OpDeliver [7; 8]%Z; OpSetCallback null_callback sched6; OpDeliver [9]%Z]
        (st c') = Some (s', tr) ∧ frame_callbacks tr = [].
Proof.
  split; [exact Inv_s1|]. split; [reflexivity|]. split; [reflexivity|].
  apply (C1_detach_stops_frame_callbacks s1 null_callback sched6
           [OpDeliver [7; 8]%Z; OpSetCallback null_callback sched6; OpDeliver [9]%Z]).
  - exact Inv_s1.
  - reflexivity.
  - reflexivity.
Defined.

(** C2, as the spec states it, fails: in [SetCallback] the native calls
    [AddOrUpdateSink] (registering on a new track source) and [RemoveSink]
    (detaching afterwards) are made while the observer mutex is held. *)
Lemma C2_native_calls_made_under_lock :
  (r ← run (SetCallback cb1) s0 [];
   Some (caller_events (trace r.2), native_calls_outside_lock false (trace r.2))) =
  Some ([EvLock; EvNew 1%positive; EvAddOrUpdateSink 1%positive (mkVideoSinkWants true);
         EvObserverSetCallback 1%positive cb1; EvUnlock], false) ∧
  (r ← run (SetCallback null_callback) s1 [];
   Some (caller_events (trace r.2), native_calls_outside_lock false (trace r.2))) =
  Some ([EvLock; EvRemoveSink 1%positive; EvDelete 1%positive; EvUnlock], false).
Proof. split; vm_compute; reflexivity. Qed.

(** The mutex spans the body of [SetCallback]: first action, last action,
    nothing in between, and every native call under it. *)
Lemma SetCallback_lock_span s cb sched :
  Inv s →
  ∃ c' body,
    run (SetCallback cb) s sched = Some (tt, c') ∧
    caller_events (trace c') = EvLock :: body ++ [EvUnlock] ∧
    (EvLock ∉ body) ∧ (EvUnlock ∉ body) ∧
    native_calls_under_lock false (trace c') = true ∧
    observer_mutex_ (st c') = false.
Proof.
  intros HI. pose proof (inv_mutex s HI) as Hmut.
  destruct (is_set cb) eqn:Hcb, (observer_ s) as [p|] eqn:Hobs.
  - eexists _, [EvObserverSetCallback p cb].
    split; [apply SetCallback_update; eauto using Inv_live|].
    cbn [trace st]. rewrite <- native_calls_under_lock_caller_events. caller_trace.
    repeat split; try done; set_solver.
  - eexists _, [EvNew _; EvAddOrUpdateSink _ _; EvObserverSetCallback _ cb].
    split; [by apply SetCallback_attach|].
    cbn [trace st]. rewrite <- native_calls_under_lock_caller_events. caller_trace.
    repeat split; try done; set_solver.
  - eexists _, [EvRemoveSink p; EvDelete p].
    split; [apply SetCallback_detach; eauto using Inv_live|].
    cbn [trace st]. rewrite <- native_calls_under_lock_caller_events. caller_trace.
    repeat split; try done; set_solver.
  - eexists _, [].
    split; [by apply SetCallback_noop|].
    cbn [trace st]. rewrite <- native_calls_under_lock_caller_events. caller_trace.
    repeat split; try done; set_solver.
Qed.

(** A call that finds the mutex held does not go on. *)
Lemma SetCallback_blocked s cb sched :
  observer_mutex_ s = true → run (SetCallback cb) s sched = None.
Proof.
  intros Hheld. unfold run, SetCallback, lock_guard, mutex_lock.
  step. by rewrite Hheld.
Qed.

(** C2, amended.  In every execution of [SetCallback] from a state
    satisfying the invariant, the observer mutex is acquired by the first
    action of the call and released by its last one, and is neither acquired
    nor released in between: it is held for the whole body, so every native
    sink registration or removal of the call is made while it is held.  The
    mutex is exclusive: a call that finds it held does not go on. *)
Theorem C2_lock_held_for_whole_call s cb sched :
  Inv s →
  ∃ c' body,
    run (SetCallback cb) s sched = Some (tt, c') ∧
    caller_events (trace c') = EvLock :: body ++ [EvUnlock] ∧
    (EvLock ∉ body) ∧ (EvUnlock ∉ body) ∧
    native_calls_under_lock false (trace c') = true ∧
    observer_mutex_ (st c') = false ∧
    run (SetCallback cb) (set_mutex true s) sched = None.
Proof.
  intros HI.
  destruct (SetCallback_lock_span s cb sched HI)
    as (c' & body & Hrun & Htr & Hl & Hu & Hnative & Hfree).
  exists c', body. repeat (split; [done|]).
  by apply SetCallback_blocked.
Qed.

Lemma C2_lock_held_for_whole_call_witness :
  Inv s1 ∧
  ∃ c' body,
    run (SetCallback null_callback) s1 sched6 = Some (tt, c') ∧
    caller_events (trace c') = EvLock :: body ++ [EvUnlock] ∧
    (EvLock ∉ body) ∧ (EvUnlock ∉ body) ∧
    native_calls_under_lock false (trace c') = true ∧
    observer_mutex_ (st c') = false ∧
    run (SetCallback null_callback) (set_mutex true s1) sched6 = None.
Proof.
  split; [exact Inv_s1|].
  apply (C2_lock_held_for_whole_call s1 null_callback sched6). exact Inv_s1.
Defined.

(** A registration on a detached track source, then a second one: traces,
    counts and states. *)
Lemma SetCallback_attach_then_update s cb cb' sched sched' :
  observer_ s = None → observer_mutex_ s = false →
  is_set cb = true → is_set cb' = true →
  let p := fresh_addr s in
  ∃ c1 c2,
    run (SetCallback cb) s sched = Some (tt, c1) ∧
    caller_events (trace c1) =
      [EvLock; EvNew p; EvAddOrUpdateSink p (mkVideoSinkWants true);
       EvObserverSetCallback p cb; EvUnlock] ∧
    (p ∉ dom (heap s)) ∧
    constructions (trace c1) = 1 ∧ registrations (trace c1) = 1 ∧
    st c1 = mkState (Some p) false (<[p := mkVideoSinkWants true]> (source_ s))
              (<[p := mkVideoFrameObserver cb]> (heap s)) (freed s) ∧
    run (SetCallback cb') (st c1) sched' = Some (tt, c2) ∧
    caller_events (trace c2) = [EvLock; EvObserverSetCallback p cb'; EvUnlock] ∧
    registrations (trace c2) = 0 ∧ constructions (trace c2) = 0 ∧
    st c2 = store_callback p cb' (st c1).
Proof.
  intros Hobs Hmut Hcb Hcb' p.
  set (sAtt := mkState (Some p) false (<[p := mkVideoSinkWants true]> (source_ s))
               (<[p := mkVideoFrameObserver cb]> (heap s)) (freed s)).
  assert (set_mutex false (store_callback p cb
            (add_sink p (mkVideoSinkWants true) (own_new_observer p (set_mutex true s))))
          = sAtt) as Hs1.
  { unfold sAtt, set_mutex, store_callback, add_sink, own_new_observer.
    proj_simpl. by rewrite insert_insert_eq. }
  eexists _, _. split; [by apply SetCallback_attach|]. cbn [trace st]. fold p.
  rewrite Hs1.
  split; [by caller_trace|].
  split; [apply fresh_addr_spec|].
  split; [rewrite <- constructions_caller_events; by caller_trace|].
  split; [rewrite <- registrations_caller_events; by caller_trace|].
  split; [done|].
  split.
  { apply (SetCallback_update sAtt sched' cb' p); [done|done| |done].
    unfold sAtt. proj_simpl. rewrite lookup_insert_eq. eauto. }
  cbn [trace st].
  split; [by caller_trace|].
  split; [rewrite <- registrations_caller_events; by caller_trace|].
  split; [rewrite <- constructions_caller_events; by caller_trace|].
  done.
Qed.

(** C3. On a detached track source whose mutex is free, [SetCallback] with a
    non-null callback [cb] constructs exactly one observer, at a new address
    [p], registers it exactly once with the native source, with sink settings
    whose [rotation_applied] is true, and stores [cb] in it.  A following
    [SetCallback] with a non-null [cb'] makes no native sink registration and
    changes nothing but the callback stored in the observer, which is [cb']
    from then on; the sink table is as the first call left it.  Both hold
    whatever frames the native thread delivers meanwhile. *)
Theorem C3_attach_registers_once s cb cb' sched sched' :
  observer_ s = None → observer_mutex_ s = false →
  is_set cb = true → is_set cb' = true →
  let p := fresh_addr s in
  ∃ c1 c2,
    run (SetCallback cb) s sched = Some (tt, c1) ∧
    caller_events (trace c1) =
      [EvLock; EvNew p; EvAddOrUpdateSink p (mkVideoSinkWants true);
       EvObserverSetCallback p cb; EvUnlock] ∧
    (p ∉ dom (heap s)) ∧
    constructions (trace c1) = 1 ∧ registrations (trace c1) = 1 ∧
    st c1 = mkState (Some p) false (<[p := mkVideoSinkWants true]> (source_ s))
              (<[p := mkVideoFrameObserver cb]> (heap s)) (freed s) ∧
    run (SetCallback cb') (st c1) sched' = Some (tt, c2) ∧
    caller_events (trace c2) = [EvLock; EvObserverSetCallback p cb'; EvUnlock] ∧
    registrations (trace c2) = 0 ∧ constructions (trace c2) = 0 ∧
    st c2 = store_callback p cb' (st c1) ∧
    st c2 = mkState (Some p) false (<[p := mkVideoSinkWants true]> (source_ s))
              (<[p := mkVideoFrameObserver cb']> (heap s)) (freed s) ∧
    heap (st c1) !! p = Some (mkVideoFrameObserver cb) ∧
    heap (st c2) !! p = Some (mkVideoFrameObserver cb') ∧
    source_ (st c2) !! p = Some (mkVideoSinkWants true).
Proof.
  intros Hobs Hmut Hcb Hcb' p.
  destruct (SetCallback_attach_then_update s cb cb' sched sched' Hobs Hmut Hcb Hcb')
    as (c1 & c2 & Hrun1 & Htr1 & Hp & Hn & Hr & Hst1 & Hrun2 & Htr2 & Hr2 & Hn2 & Hst2).
  fold p in Htr1, Hp, Hst1, Htr2, Hst2.
  exists c1, c2. repeat (split; [done|]).
  rewrite Hst2, Hst1. unfold store_callback. proj_simpl.
  rewrite insert_insert_eq, !lookup_insert_eq. done.
Qed.

Lemma C3_attach_registers_once_witness :
  observer_ s0 = None ∧ observer_mutex_ s0 = false ∧
  is_set cb1 = true ∧ is_set cb2 = true ∧
  let p := fresh_addr s0 in
  ∃ c1 c2,
    run (SetCallback cb1) s0 sched6 = Some (tt, c1) ∧
    caller_events (trace c1) =
      [EvLock; EvNew p; EvAddOrUpdateSink p (mkVideoSinkWants true);
       EvObserverSetCallback p cb1; EvUnlock] ∧
    (p ∉ dom (heap s0)) ∧
    constructions (trace c1) = 1 ∧ registrations (trace c1) = 1 ∧
    st c1 = mkState (Some p) false (<[p := mkVideoSinkWants true]> (source_ s0))
              (<[p := mkVideoFrameObserver cb1]> (heap s0)) (freed s0) ∧
    run (SetCallback cb2) (st c1) sched6 = Some (tt, c2) ∧
    caller_events (trace c2) = [EvLock; EvObserverSetCallback p cb2; EvUnlock] ∧
    registrations (trace c2) = 0 ∧ constructions (trace c2) = 0 ∧
    st c2 = store_callback p cb2 (st c1) ∧
    st c2 = mkState (Some p) false (<[p := mkVideoSinkWants true]> (source_ s0))
              (<[p := mkVideoFrameObserver cb2]> (heap s0)) (freed s0) ∧
    heap (st c1) !! p = Some (mkVideoFrameObserver cb1) ∧
    heap (st c2) !! p = Some (mkVideoFrameObserver cb2) ∧
    source_ (st c2) !! p = Some (mkVideoSinkWants true).
Proof.
  split; [reflexivity|]. split; [reflexivity|]. split; [reflexivity|].
  split; [reflexivity|].
  apply (C3_attach_registers_once s0 cb1 cb2 sched6 sched6); reflexivity.
Defined.

(** Two calls with a null callback in a row: traces and states. *)
Lemma SetCallback_detach_twice s cb cb' sched sched' :
  Inv s → is_set cb = false → is_set cb' = false →
  ∃ c1 c2,
    run (SetCallback cb) s sched = Some (tt, c1) ∧
    match observer_ s with
    | Some p =>
        caller_events (trace c1) = [EvLock; EvRemoveSink p; EvDelete p; EvUnlock] ∧
        st c1 = destroy_observer p (remove_sink p s)
    | None =>
        caller_events (trace c1) = [EvLock; EvUnlock] ∧ st c1 = s
    end ∧
    observer_ (st c1) = None ∧
    run (SetCallback cb') (st c1) sched' = Some (tt, c2) ∧
    caller_events (trace c2) = [EvLock; EvUnlock] ∧
    removals (trace c2) = 0 ∧
    st c2 = st c1.
Proof.
  intros HI Hcb Hcb'. pose proof (inv_mutex s HI) as Hmut.
  destruct (observer_ s) as [p|] eqn:Hobs.
  - eexists _, _. split; [apply SetCallback_detach; eauto using Inv_live|].
    cbn [trace st].
    assert (set_mutex false (destroy_observer p (remove_sink p (set_mutex true s)))
            = destroy_observer p (remove_sink p s)) as ->.
    { destruct s; simpl in *; by subst. }
    split; [split; [by caller_trace|done]|].
    split; [done|].
    split; [by apply SetCallback_noop|]. cbn [trace st].
    split; [by caller_trace|].
    split; [rewrite <- removals_caller_events; by caller_trace|done].
  - eexists _, _. split; [by apply SetCallback_noop|]. cbn [trace st].
    split; [split; [by caller_trace|done]|].
    split; [done|].
    split; [by apply SetCallback_noop|]. cbn [trace st].
    split; [by caller_trace|].
    split; [rewrite <- removals_caller_events; by caller_trace|done].
Qed.

(** C4. From a state satisfying the invariant, [SetCallback] with a null
    callback: while an observer [p] is attached, calls [RemoveSink] on it,
    then destroys it, and leaves the track source detached, with [p] gone
    from the sink table of the native source and from the live observers;
    while detached, leaves the state as it was, with no action but taking and
    releasing the mutex.  Hence a second such call right after the first
    changes nothing and removes no sink. *)
Theorem C4_detach_idempotent s cb cb' sched sched' :
  Inv s → is_set cb = false → is_set cb' = false →
  ∃ c1 c2,
    run (SetCallback cb) s sched = Some (tt, c1) ∧
    match observer_ s with
    | Some p =>
        caller_events (trace c1) = [EvLock; EvRemoveSink p; EvDelete p; EvUnlock] ∧
        st c1 = destroy_observer p (remove_sink p s) ∧
        st c1 = mkState None false (delete p (source_ s)) (delete p (heap s))
                  ({[p]} ∪ freed s) ∧
        (p ∈ dom (source_ s)) ∧ (p ∉ dom (source_ (st c1))) ∧
        (p ∈ dom (heap s)) ∧ (p ∉ dom (heap (st c1)))
    | None =>
        caller_events (trace c1) = [EvLock; EvUnlock] ∧ st c1 = s
    end ∧
    observer_ (st c1) = None ∧
    run (SetCallback cb') (st c1) sched' = Some (tt, c2) ∧
    caller_events (trace c2) = [EvLock; EvUnlock] ∧
    removals (trace c2) = 0 ∧
    st c2 = st c1.
Proof.
  intros HI Hcb Hcb'.
  destruct (SetCallback_detach_twice s cb cb' sched sched' HI Hcb Hcb')
    as (c1 & c2 & Hrun1 & Hcase & Hrest).
  exists c1, c2. split; [done|]. split; [|done].
  destruct (observer_ s) as [p|] eqn:Hobs; [|done].
  destruct Hcase as [Htr Hst]. split; [done|]. split; [done|].
  pose proof (inv_owned s HI) as Ho. rewrite Hobs in Ho. simpl in Ho.
  pose proof (inv_registered s HI) as Hr.
  rewrite Hst. unfold destroy_observer, remove_sink. proj_simpl.
  rewrite (inv_mutex s HI), !dom_delete_L.
  split; [done|]. repeat split; set_solver.
Qed.

Lemma C4_detach_idempotent_witness :
  Inv s1 ∧ is_set null_callback = false ∧
  ∃ c1 c2,
    run (SetCallback null_callback) s1 sched6 = Some (tt, c1) ∧
    match observer_ s1 with
    | Some p =>
        caller_events (trace c1) = [EvLock; EvRemoveSink p; EvDelete p; EvUnlock] ∧
        st c1 = destroy_observer p (remove_sink p s1) ∧
        st c1 = mkState None false (delete p (source_ s1)) (delete p (heap s1))
                  ({[p]} ∪ freed s1) ∧
        (p ∈ dom (source_ s1)) ∧ (p ∉ dom (source_ (st c1))) ∧
        (p ∈ dom (heap s1)) ∧ (p ∉ dom (heap (st c1)))
    | None =>
        caller_events (trace c1) = [EvLock; EvUnlock] ∧ st c1 = s1
    end ∧
    observer_ (st c1) = None ∧
    run (SetCallback null_callback) (st c1) sched6 = Some (tt, c2) ∧
    caller_events (trace c2) = [EvLock; EvUnlock] ∧
    removals (trace c2) = 0 ∧
    st c2 = st c1.
Proof.
  split; [exact Inv_s1|]. split; [reflexivity|].
  apply (C4_detach_idempotent s1 null_callback null_callback sched6 sched6).
  - exact Inv_s1.
  - reflexivity.
  - reflexivity.
Defined.

(** C5. In a state satisfying the invariant at most one observer of the
    track source is alive, and an observer the track source ever created is
    alive if and only if it is registered as a sink of the native source.
    The invariant holds right after construction, and it is preserved by
    [SetCallback], for every argument and every schedule of the native
    thread, and by the destructor; both always return. *)
Theorem C5_invariant_preserved s :
  Inv s →
  (∀ p q, p ∈ dom (heap s) → q ∈ dom (heap s) → p = q) ∧
  (∀ p, p ∈ dom (heap s) ∪ freed s → (p ∈ dom (heap s) ↔ p ∈ dom (source_ s))) ∧
  (∀ sinks, Inv (VideoTrackSource sinks)) ∧
  (∀ cb sched, ∃ c', run (SetCallback cb) s sched = Some (tt, c') ∧ Inv (st c')) ∧
  (∀ sched, ∃ c', run destructor s sched = Some (tt, c') ∧ Inv (st c')).
Proof.
  intros HI. split; [|split; [|split; [|split]]].
  - intros p q. by apply Inv_at_most_one.
  - intros p. by apply Inv_exists_iff_registered.
  - apply Inv_init.
  - intros cb sched. by apply SetCallback_Inv.
  - intros sched. by apply destructor_Inv.
Qed.

Lemma C5_invariant_preserved_witness :
  Inv s1 ∧
  (∀ p q, p ∈ dom (heap s1) → q ∈ dom (heap s1) → p = q) ∧
  (∀ p, p ∈ dom (heap s1) ∪ freed s1 → (p ∈ dom (heap s1) ↔ p ∈ dom (source_ s1))) ∧
  (∀ sinks, Inv (VideoTrackSource sinks)) ∧
  (∀ cb sched, ∃ c', run (SetCallback cb) s1 sched = Some (tt, c') ∧ Inv (st c')) ∧
  (∀ sched, ∃ c', run destructor s1 sched = Some (tt, c') ∧ Inv (st c')).
Proof.
  split; [exact Inv_s1|]. apply (C5_invariant_preserved s1). exact Inv_s1.
Defined.

(** C6. From a state satisfying the invariant, the destructor returns.  With
    an observer [p] attached its only actions are [RemoveSink] on [p]
    followed by the destruction of [p], with no frame event in between or
    after; with no observer attached it takes no action, in particular no
    sink removal.  No frame is delivered to a destroyed observer during the
    destructor, whatever the native thread delivers meanwhile, nor by any
    delivery after it. *)
Theorem C6_destructor_unregisters_first s sched fs :
  Inv s →
  ∃ c',
    run destructor s sched = Some (tt, c') ∧
    match observer_ s with
    | Some p =>
        (∃ tr, trace c' = tr ++ [EvRemoveSink p; EvDelete p]) ∧
        caller_events (trace c') = [EvRemoveSink p; EvDelete p]
    | None =>
        caller_events (trace c') = [] ∧ removals (trace c') = 0
    end ∧
    use_after_frees (trace c') = [] ∧
    deliver_frames (st c') fs = [].
Proof.
  intros HI. destruct (observer_ s) as [p|] eqn:Hobs.
  - eexists. split; [apply destructor_attached; eauto using Inv_live|].
    cbn [trace st].
    pose proof (detaching_quiet s p false HI Hobs) as Hq1.
    pose proof (detached_quiet s p false HI Hobs) as Hq2.
    cbn zeta in Hq1, Hq2.
    rewrite (deliver_frames_quiet (remove_sink p s)) by exact Hq1.
    split; [split|split].
    + by exists (deliver_frames s (slot sched 0)).
    + by caller_trace.
    + rewrite use_after_frees_app, deliver_frames_no_use_after_free
        by by apply Inv_no_dangling. done.
    + by apply deliver_frames_quiet.
  - eexists. split; [by apply destructor_detached|]. cbn [trace st].
    split; [split|split].
    + by caller_trace.
    + rewrite <- removals_caller_events. by caller_trace.
    + by apply deliver_frames_no_use_after_free, Inv_no_dangling.
    + by apply deliver_frames_quiet, Inv_detached_quiet.
Qed.

Lemma C6_destructor_unregisters_first_witness :
  Inv s1 ∧
  ∃ c',
    run destructor s1 sched6 = Some (tt, c') ∧
    match observer_ s1 with
    | Some p =>
        (∃ tr, trace c' = tr ++ [EvRemoveSink p; EvDelete p]) ∧
        caller_events (trace c') = [EvRemoveSink p; EvDelete p]
    | None =>
        caller_events (trace c') = [] ∧ removals (trace c') = 0
    end ∧
    use_after_frees (trace c') = [] ∧
    deliver_frames (st c') [7; 8]%Z = [].
Proof.
  split; [exact Inv_s1|].
  apply (C6_destructor_unregisters_first s1 sched6 [7; 8]%Z). exact Inv_s1.
Defined.

(** ** Properties of [VideoSourceAdapter] *)

(** C10. For every adapter: the check in [UnregisterObserver o] passes
    exactly when [o] is the registered observer, which is the case right
    after [RegisterObserver o], whatever was registered before; when the
    check passes or is compiled out, [UnregisterObserver] returns and leaves
    no observer registered; with the check compiled in and another observer
    registered it aborts.  [RegisterObserver o] always succeeds and replaces
    whatever observer was registered. *)
Theorem C10_adapter_register_unregister (dcheck_is_on : bool)
    (a : VideoSourceAdapter.t) (o o' : option addr) :
  (VideoSourceAdapter.RTC_DCHECK_EQ true (VideoSourceAdapter.observer_ a) o = Some tt
     ↔ VideoSourceAdapter.observer_ a = o) ∧
  VideoSourceAdapter.UnregisterObserver dcheck_is_on o
    (VideoSourceAdapter.RegisterObserver o (VideoSourceAdapter.RegisterObserver o' a))
    = Some (VideoSourceAdapter.mk None) ∧
  VideoSourceAdapter.UnregisterObserver true o a
    = (if decide (VideoSourceAdapter.observer_ a = o)
       then Some (VideoSourceAdapter.mk None) else None) ∧
  VideoSourceAdapter.UnregisterObserver false o a = Some (VideoSourceAdapter.mk None) ∧
  VideoSourceAdapter.observer_ (VideoSourceAdapter.RegisterObserver o a) = o ∧
  VideoSourceAdapter.observer_
    (VideoSourceAdapter.RegisterObserver o' (VideoSourceAdapter.RegisterObserver o a)) = o'.
Proof.
  unfold VideoSourceAdapter.UnregisterObserver, VideoSourceAdapter.RTC_DCHECK_EQ,
    VideoSourceAdapter.RegisterObserver.
  repeat split; simpl.
  - intros H. case_bool_decide; [done|discriminate].
  - intros ->. by rewrite bool_decide_eq_true_2.
  - rewrite bool_decide_eq_true_2 by done. by rewrite andb_false_r.
  - case_bool_decide; by case_decide.
Qed.

Example adapter_unregister_other_observer_aborts :
  VideoSourceAdapter.UnregisterObserver true (Some 2%positive)
    (VideoSourceAdapter.RegisterObserver (Some 1%positive) (VideoSourceAdapter.mk None))
  = None.
Proof. reflexivity. Qed.

(** ** Facts about the data channel model *)

Module DataChannelFacts.
Import DataChannel.

Lemma dispatch_silent cbs ev : silent cbs = true → dispatch cbs ev = [].
Proof.
  unfold silent. intros H.
  apply andb_true_iff in H as [H Hs]. apply andb_true_iff in H as [Hm Hb].
  destruct ev; simpl; by rewrite ?Hm, ?Hb, ?Hs.
Qed.

Lemma callbacks_of_app h l1 l2 :
  callbacks_of h (l1 ++ l2) = callbacks_of h l1 ++ callbacks_of h l2.
Proof. apply List.filter_app. Qed.

Lemma callbacks_of_other h h' (l : list Invocation) :
  h' ≠ h → callbacks_of h (Callback h' <$> l) = [].
Proof.
  intros Hne. induction l as [|c l IH]; [done|].
  cbn. by rewrite bool_decide_eq_false_2.
Qed.

Lemma GetUserData_slot h reg : mrsDataChannelGetUserData h reg = default 0%Z (slot_of h reg).
Proof. unfold mrsDataChannelGetUserData, slot_of. by destruct (reg !! h). Qed.

Lemma slot_of_SetUserData h v reg :
  slot_of h (mrsDataChannelSetUserData h v reg) = (λ _, v) <$> slot_of h reg.
Proof.
  unfold slot_of, mrsDataChannelSetUserData.
  destruct (reg !! h) as [ch|] eqn:Hh; [|by rewrite Hh].
  by rewrite lookup_insert_eq.
Qed.

Lemma slot_of_SetUserData_other h h' v reg :
  h' ≠ h → slot_of h (mrsDataChannelSetUserData h' v reg) = slot_of h reg.
Proof.
  intros Hne. unfold slot_of, mrsDataChannelSetUserData.
  destruct (reg !! h') as [ch|]; [|done]. by rewrite lookup_insert_ne.
Qed.

Lemma slot_of_RegisterCallbacks h h' cbs reg :
  slot_of h (mrsDataChannelRegisterCallbacks h' cbs reg) = slot_of h reg.
Proof.
  unfold slot_of, mrsDataChannelRegisterCallbacks.
  destruct (reg !! h') as [ch|] eqn:Hh'; [|done].
  destruct (decide (h' = h)) as [->|Hne].
  - by rewrite lookup_insert_eq, Hh'.
  - by rewrite lookup_insert_ne.
Qed.

Lemma slot_of_native_event h h' ev reg :
  slot_of h (native_event h' ev reg).1 = slot_of h reg.
Proof.
  unfold slot_of, native_event.
  destruct (reg !! h') as [ch|] eqn:Hh'; [|done]. simpl.
  destruct (decide (h' = h)) as [->|Hne].
  - rewrite lookup_insert_eq, Hh'. by destruct ev.
  - by rewrite lookup_insert_ne.
Qed.

Lemma slot_of_SendMessage h h' data size reg :
  slot_of h (mrsDataChannelSendMessage h' data size reg).1.2 = slot_of h reg.
Proof.
  unfold mrsDataChannelSendMessage.
  destruct ((size =? 0)%N || (data =? 0)%Z); [done|].
  destruct (reg !! h') as [ch|]; [|done].
  destruct (negb (sendable (state ch))); [done|].
  destruct (limit ch <? buffered ch + size)%N; simpl; apply slot_of_native_event.
Qed.

(** Only [mrsDataChannelSetUserData] on the same handle changes a slot. *)
Lemma slot_of_apply_action h a reg :
  sets_user_data h a = false → slot_of h (apply_action a reg).1 = slot_of h reg.
Proof.
  destruct a as [h' v|h' cbs|h' data size|h' ev]; simpl; intros Ha.
  - apply slot_of_SetUserData_other. by apply bool_decide_eq_false in Ha.
  - apply slot_of_RegisterCallbacks.
  - apply slot_of_SendMessage.
  - apply slot_of_native_event.
Qed.

Lemma slot_of_run_actions h acts : ∀ reg,
  forallb (λ a, negb (sets_user_data h a)) acts = true →
  slot_of h (run_actions acts reg).1 = slot_of h reg.
Proof.
  induction acts as [|a acts IH]; intros reg Hacts; [done|].
  simpl in Hacts. apply andb_true_iff in Hacts as [Ha Hacts].
  apply negb_true_iff in Ha. simpl.
  rewrite IH by done. by apply slot_of_apply_action.
Qed.

Lemma run_actions_app acts1 acts2 reg :
  run_actions (acts1 ++ acts2) reg =
  let r := run_actions acts1 reg in
  let r' := run_actions acts2 r.1 in (r'.1, r.2 ++ r'.2).
Proof.
  revert reg. induction acts1 as [|a acts1 IH]; intros reg; simpl.
  - by destruct (run_actions acts2 reg).
  - rewrite IH. simpl. by rewrite app_assoc.
Qed.

(** No action removes a channel from the registry. *)
Lemma resolves_apply_action h a reg :
  is_Some (reg !! h) → is_Some ((apply_action a reg).1 !! h).
Proof.
  intros [ch Hch].
  pose proof (slot_of_SetUserData h) as Hset.
  assert (is_Some (slot_of h reg)) as Hs by (unfold slot_of; rewrite Hch; eauto).
  assert (∀ reg', is_Some (slot_of h reg') → is_Some (reg' !! h)) as Hback.
  { unfold slot_of. intros reg' [v Hv]. destruct (reg' !! h); [eauto|done]. }
  apply Hback.
  destruct (sets_user_data h a) eqn:Ha.
  - destruct a as [h' v| | |]; try done. apply bool_decide_eq_true in Ha as ->.
    simpl. rewrite slot_of_SetUserData. destruct Hs as [w ->]. eauto.
  - by rewrite slot_of_apply_action.
Qed.

Lemma resolves_run_actions h acts : ∀ reg,
  is_Some (reg !! h) → is_Some ((run_actions acts reg).1 !! h).
Proof.
  induction acts as [|a acts IH]; intros reg Hh; [done|].
  simpl. by apply IH, resolves_apply_action.
Qed.

Lemma silenced_native_event h h' ev reg :
  silenced h reg →
  silenced h (native_event h' ev reg).1 ∧ callbacks_of h (native_event h' ev reg).2 = [].
Proof.
  intros Hq. unfold native_event.
  destruct (reg !! h') as [ch'|] eqn:Hh'; [|done]. simpl.
  destruct (decide (h' = h)) as [->|Hne].
  - rewrite (dispatch_silent _ ev (Hq ch' Hh')). split; [|done].
    intros ch. rewrite lookup_insert_eq. intros [= <-].
    destruct ev; simpl; by apply Hq.
  - split; [|by apply callbacks_of_other].
    intros ch. rewrite lookup_insert_ne by done. apply Hq.
Qed.

Lemma silenced_SetUserData h h' v reg :
  silenced h reg → silenced h (mrsDataChannelSetUserData h' v reg).
Proof.
  intros Hq. unfold mrsDataChannelSetUserData.
  destruct (reg !! h') as [ch'|] eqn:Hh'; [|done].
  destruct (decide (h' = h)) as [->|Hne]; intros ch.
  - rewrite lookup_insert_eq. intros [= <-]. exact (Hq ch' Hh').
  - rewrite lookup_insert_ne by done. apply Hq.
Qed.

Lemma silenced_RegisterCallbacks h h' cbs reg :
  silenced h reg → bool_decide (h' = h) && negb (silent cbs) = false →
  silenced h (mrsDataChannelRegisterCallbacks h' cbs reg).
Proof.
  intros Hq Hreg. unfold mrsDataChannelRegisterCallbacks.
  destruct (reg !! h') as [ch'|] eqn:Hh'; [|done].
  destruct (decide (h' = h)) as [->|Hne]; intros ch.
  - rewrite lookup_insert_eq. intros [= <-]. simpl.
    rewrite bool_decide_eq_true_2 in Hreg by done. simpl in Hreg.
    by apply negb_false_iff in Hreg.
  - rewrite lookup_insert_ne by done. apply Hq.
Qed.

Lemma silenced_SendMessage h h' data size reg :
  silenced h reg →
  silenced h (mrsDataChannelSendMessage h' data size reg).1.2 ∧
  callbacks_of h (mrsDataChannelSendMessage h' data size reg).2 = [].
Proof.
  intros Hq. unfold mrsDataChannelSendMessage.
  destruct ((size =? 0)%N || (data =? 0)%Z); [done|].
  destruct (reg !! h') as [ch|]; [|done].
  destruct (negb (sendable (state ch))); [done|].
  destruct (limit ch <? buffered ch + size)%N; simpl; by apply silenced_native_event.
Qed.

(** A silenced channel stays silenced, and nothing is invoked for it, as
    long as no set with a non-null callback is registered on it. *)
Lemma silenced_run_actions h acts : ∀ reg,
  silenced h reg →
  forallb (λ a, negb (registers_callback h a)) acts = true →
  silenced h (run_actions acts reg).1 ∧ callbacks_of h (run_actions acts reg).2 = [].
Proof.
  induction acts as [|a acts IH]; intros reg Hq Hacts; [done|].
  simpl in Hacts. apply andb_true_iff in Hacts as [Ha Hacts].
  apply negb_true_iff in Ha. simpl.
  assert (silenced h (apply_action a reg).1 ∧ callbacks_of h (apply_action a reg).2 = [])
    as [Hq' Hcb].
  { destruct a as [h' v|h' cbs|h' data size|h' ev]; simpl in *.
    - split; [by apply silenced_SetUserData|done].
    - split; [by apply silenced_RegisterCallbacks|done].
    - by apply silenced_SendMessage.
    - by apply silenced_native_event. }
  destruct (IH _ Hq' Hacts) as [Hq'' Hcb'].
  split; [done|]. by rewrite callbacks_of_app, Hcb, Hcb'.
Qed.

(** ** Properties of the data channel interop *)

(** C7. For every handle, data pointer and size: [mrsDataChannelSendMessage]
    returns the invalid-argument code when the size is zero, or when the data
    pointer is null while the size is positive; in those cases nothing is
    handed to the native channel and the channels are left as they were.  For
    valid arguments and a handle that resolves to a channel that is not
    sendable it returns the not-open code. *)
Theorem C7_send_validates_arguments h data size reg :
  (size = 0%N ∨ (data = 0%Z ∧ (0 < size)%N) →
     mrsDataChannelSendMessage h data size reg = (InvalidArgument, reg, [])) ∧
  (∀ ch, size ≠ 0%N → data ≠ 0%Z → reg !! h = Some ch → sendable (state ch) = false →
     (mrsDataChannelSendMessage h data size reg).1.1 = NotOpen).
Proof.
  unfold mrsDataChannelSendMessage. split.
  - intros [->|[-> _]]; [done|]. by rewrite orb_true_r.
  - intros ch Hsize Hdata Hch Hstate.
    apply N.eqb_neq in Hsize. apply Z.eqb_neq in Hdata.
    by rewrite Hsize, Hdata, Hch, Hstate.
Qed.

Lemma C7_send_validates_arguments_witness :
  mrsDataChannelSendMessage 1%positive 0 5 reg1 = (InvalidArgument, reg1, []) ∧
  mrsDataChannelSendMessage 1%positive 55 0 reg1 = (InvalidArgument, reg1, []) ∧
  (mrsDataChannelSendMessage 1%positive 55 5
     (<[1%positive := new_channel 42 5120]> reg1)).1.1 = NotOpen.
Proof.
  split; [|split].
  - apply (proj1 (C7_send_validates_arguments 1%positive 0 5 reg1)).
    right. split; [reflexivity|reflexivity].
  - apply (proj1 (C7_send_validates_arguments 1%positive 55 0 reg1)).
    left. reflexivity.
  - apply (proj2 (C7_send_validates_arguments 1%positive 55 5
                    (<[1%positive := new_channel 42 5120]> reg1))
             (new_channel 42 5120)); [discriminate|discriminate|reflexivity..].
Defined.

(** C8. For every handle that resolves to a channel:
    [mrsDataChannelSetUserData] stores the value verbatim, touching nothing
    else of the channel, and overwrites any value stored before; and
    [mrsDataChannelGetUserData] returns the value passed to the most recent
    [mrsDataChannelSetUserData] on that handle, whatever else happened to the
    channels since; it returns the null pointer if the channel was created
    and no value was ever set for it. *)
Theorem C8_user_data_last_write_wins h ch v v' acts acts' lim reg :
  reg !! h = Some ch →
  forallb (λ a, negb (sets_user_data h a)) acts' = true →
  mrsDataChannelSetUserData h v reg = <[h := set_user_data v ch]> reg ∧
  mrsDataChannelSetUserData h v (mrsDataChannelSetUserData h v' reg)
    = mrsDataChannelSetUserData h v reg ∧
  mrsDataChannelGetUserData h (mrsDataChannelSetUserData h v reg) = v ∧
  mrsDataChannelGetUserData h
    (run_actions (acts ++ ASetUserData h v :: acts') reg).1 = v ∧
  mrsDataChannelGetUserData h
    (run_actions acts' (<[h := new_channel (id ch) lim]> reg)).1 = 0%Z.
Proof.
  intros Hch Hacts'.
  assert (mrsDataChannelSetUserData h v reg = <[h := set_user_data v ch]> reg) as Hset.
  { unfold mrsDataChannelSetUserData. by rewrite Hch. }
  split; [done|]. split; [|split; [|split]].
  - unfold mrsDataChannelSetUserData at 1 2. rewrite Hch, lookup_insert_eq.
    by rewrite insert_insert_eq, Hset.
  - rewrite GetUserData_slot, slot_of_SetUserData. unfold slot_of. by rewrite Hch.
  - rewrite run_actions_app. cbn [fst snd]. cbn [run_actions apply_action fst].
    rewrite GetUserData_slot, slot_of_run_actions by done.
    rewrite slot_of_SetUserData.
    destruct (resolves_run_actions h acts reg) as [ch' Hch']; [eauto|].
    unfold slot_of. by rewrite Hch'.
  - rewrite GetUserData_slot, slot_of_run_actions by done.
    unfold slot_of. by rewrite lookup_insert_eq.
Qed.

Lemma C8_user_data_last_write_wins_witness :
  reg1 !! 1%positive = Some (mkChannel 0 (mkCallbacks 100 1 200 2 300 3) Open 42 0 5120) ∧
  mrsDataChannelGetUserData 1%positive
    (run_actions
       ([ASetUserData 1%positive 11; ASendMessage 1%positive 55 1024] ++
        ASetUserData 1%positive 77 ::
        [ANativeEvent 1%positive (MessageReceived 66 3); ASetUserData 2%positive 5])
       reg1).1 = 77%Z.
Proof.
  split; [reflexivity|].
  apply (C8_user_data_last_write_wins 1%positive
           (mkChannel 0 (mkCallbacks 100 1 200 2 300 3) Open 42 0 5120) 77 0
           [ASetUserData 1%positive 11; ASendMessage 1%positive 55 1024]
           [ANativeEvent 1%positive (MessageReceived 66 3); ASetUserData 2%positive 5]
           5120 reg1); reflexivity.
Defined.

(** The stored callbacks behind a handle change only by a registration
    through that handle. *)
Lemma callbacks_native_event h h' ev reg :
  callbacks <$> (native_event h' ev reg).1 !! h = callbacks <$> reg !! h.
Proof.
  unfold native_event.
  destruct (reg !! h') as [ch|] eqn:Hh'; [|done]. simpl.
  destruct (decide (h' = h)) as [->|Hne].
  - rewrite lookup_insert_eq, Hh'. by destruct ev.
  - by rewrite lookup_insert_ne.
Qed.

Lemma callbacks_SetUserData h h' v reg :
  callbacks <$> mrsDataChannelSetUserData h' v reg !! h = callbacks <$> reg !! h.
Proof.
  unfold mrsDataChannelSetUserData.
  destruct (reg !! h') as [ch|] eqn:Hh'; [|done].
  destruct (decide (h' = h)) as [->|Hne].
  - by rewrite lookup_insert_eq, Hh'.
  - by rewrite lookup_insert_ne.
Qed.

Lemma callbacks_SendMessage h h' data size reg :
  callbacks <$> (mrsDataChannelSendMessage h' data size reg).1.2 !! h
  = callbacks <$> reg !! h.
Proof.
  unfold mrsDataChannelSendMessage.
  destruct ((size =? 0)%N || (data =? 0)%Z); [done|].
  destruct (reg !! h') as [ch|]; [|done].
  destruct (negb (sendable (state ch))); [done|].
  destruct (limit ch <? buffered ch + size)%N; simpl; apply callbacks_native_event.
Qed.

Lemma callbacks_RegisterCallbacks_other h h' cbs reg :
  h' ≠ h →
  callbacks <$> mrsDataChannelRegisterCallbacks h' cbs reg !! h = callbacks <$> reg !! h.
Proof.
  intros Hne. unfold mrsDataChannelRegisterCallbacks.
  destruct (reg !! h') as [ch|]; [|done]. by rewrite lookup_insert_ne.
Qed.

Lemma callbacks_apply_action h a reg :
  registers_on h a = false →
  callbacks <$> (apply_action a reg).1 !! h = callbacks <$> reg !! h.
Proof.
  destruct a as [h' v|h' cbs|h' data size|h' ev]; simpl; intros Ha.
  - apply callbacks_SetUserData.
  - apply callbacks_RegisterCallbacks_other. by apply bool_decide_eq_false in Ha.
  - apply callbacks_SendMessage.
  - apply callbacks_native_event.
Qed.

Lemma callbacks_run_actions h acts : ∀ reg,
  forallb (λ a, negb (registers_on h a)) acts = true →
  callbacks <$> (run_actions acts reg).1 !! h = callbacks <$> reg !! h.
Proof.
  induction acts as [|a acts IH]; intros reg Hacts; [done|].
  simpl in Hacts. apply andb_true_iff in Hacts as [Ha Hacts].
  apply negb_true_iff in Ha. simpl.
  rewrite IH by done. by apply callbacks_apply_action.
Qed.

(** A native event on a channel invokes what the stored callback of its
    kind says. *)
Lemma native_event_invokes h ev reg cbs :
  callbacks <$> reg !! h = Some cbs →
  (native_event h ev reg).2 = Callback h <$> dispatch cbs ev.
Proof.
  unfold native_event. destruct (reg !! h) as [ch|]; [|done].
  simpl. by intros [= <-].
Qed.

(** C9. For every handle that resolves to a channel: one call of
    [mrsDataChannelRegisterCallbacks] replaces the three stored pairs,
    message, buffering and state, by those passed, whatever was stored
    before, and leaves the rest of the channel and the other channels alone.
    The pairs passed stay stored through native events, sends and user-data
    updates, until the next registration on the channel; and they are what a
    later native event invokes: an event of a kind whose function pointer is
    not null invokes exactly that function with its context and the data of
    the event, one whose function pointer is null invokes nothing.  After a
    registration whose three function pointers are null, no callback is
    invoked for the channel by any sequence of native events, sends,
    user-data updates and registrations, as long as none of them registers a
    non-null callback on it. *)
Theorem C9_register_replaces_and_silences h ch cbs acts reg :
  reg !! h = Some ch →
  silent cbs = true →
  forallb (λ a, negb (registers_callback h a)) acts = true →
  (∀ cbs', mrsDataChannelRegisterCallbacks h cbs' reg !! h =
           Some (mkChannel (user_data ch) cbs' (state ch) (id ch) (buffered ch)
                   (limit ch))) ∧
  (∀ cbs' h', h' ≠ h → mrsDataChannelRegisterCallbacks h cbs' reg !! h' = reg !! h') ∧
  (∀ cbs' cbs'', mrsDataChannelRegisterCallbacks h cbs'
                   (mrsDataChannelRegisterCallbacks h cbs'' reg)
                 = mrsDataChannelRegisterCallbacks h cbs' reg) ∧
  (∀ cbs' acts',
     forallb (λ a, negb (registers_on h a)) acts' = true →
     callbacks <$> (run_actions acts' (mrsDataChannelRegisterCallbacks h cbs' reg)).1 !! h
     = Some cbs') ∧
  (∀ cbs' acts' data size,
     forallb (λ a, negb (registers_on h a)) acts' = true →
     (native_event h (MessageReceived data size)
        (run_actions acts' (mrsDataChannelRegisterCallbacks h cbs' reg)).1).2 =
     if (message_callback cbs' =? 0)%Z then []
     else [Callback h (CallMessage (message_callback cbs') (message_user_data cbs')
                         data size)]) ∧
  (∀ cbs' acts' previous current lim,
     forallb (λ a, negb (registers_on h a)) acts' = true →
     (native_event h (BufferingChanged previous current lim)
        (run_actions acts' (mrsDataChannelRegisterCallbacks h cbs' reg)).1).2 =
     if (buffering_callback cbs' =? 0)%Z then []
     else [Callback h (CallBuffering (buffering_callback cbs') (buffering_user_data cbs')
                         previous current lim)]) ∧
  (∀ cbs' acts' st n,
     forallb (λ a, negb (registers_on h a)) acts' = true →
     (native_event h (StateChanged st n)
        (run_actions acts' (mrsDataChannelRegisterCallbacks h cbs' reg)).1).2 =
     if (state_callback cbs' =? 0)%Z then []
     else [Callback h (CallState (state_callback cbs') (state_user_data cbs') st n)]) ∧
  callbacks_of h (run_actions acts (mrsDataChannelRegisterCallbacks h cbs reg)).2 = [].
Proof.
  intros Hch Hsilent Hacts.
  assert (∀ cbs', mrsDataChannelRegisterCallbacks h cbs' reg
                  = <[h := set_callbacks cbs' ch]> reg) as Hreg.
  { intros cbs'. unfold mrsDataChannelRegisterCallbacks. by rewrite Hch. }
  assert (∀ cbs' acts',
     forallb (λ a, negb (registers_on h a)) acts' = true →
     callbacks <$> (run_actions acts' (mrsDataChannelRegisterCallbacks h cbs' reg)).1 !! h
     = Some cbs') as Hstored.
  { intros cbs' acts' Hacts'. rewrite callbacks_run_actions by done.
    by rewrite Hreg, lookup_insert_eq. }
  split; [|split; [|split; [|split; [|split; [|split; [|split]]]]]].
  - intros cbs'. by rewrite Hreg, lookup_insert_eq.
  - intros cbs' h' Hne. by rewrite Hreg, lookup_insert_ne.
  - intros cbs' cbs''. unfold mrsDataChannelRegisterCallbacks at 1 2.
    rewrite Hch, lookup_insert_eq. by rewrite insert_insert_eq, Hreg.
  - done.
  - intros cbs' acts' data size Hacts'.
    rewrite (native_event_invokes _ _ _ cbs') by by apply Hstored.
    simpl. by destruct (message_callback cbs' =? 0)%Z.
  - intros cbs' acts' previous current lim Hacts'.
    rewrite (native_event_invokes _ _ _ cbs') by by apply Hstored.
    simpl. by destruct (buffering_callback cbs' =? 0)%Z.
  - intros cbs' acts' st n Hacts'.
    rewrite (native_event_invokes _ _ _ cbs') by by apply Hstored.
    simpl. by destruct (state_callback cbs' =? 0)%Z.
  - apply silenced_run_actions; [|done].
    rewrite Hreg. intros ch'. rewrite lookup_insert_eq. by intros [= <-].
Qed.

Lemma C9_register_replaces_and_silences_witness :
  reg1 !! 1%positive = Some (mkChannel 0 (mkCallbacks 100 1 200 2 300 3) Open 42 0 5120) ∧
  silent (mkCallbacks 0 1 0 2 0 3) = true ∧
  mrsDataChannelRegisterCallbacks 1%positive (mkCallbacks 111 7 0 8 333 9) reg1 !! 1%positive
    = Some (mkChannel 0 (mkCallbacks 111 7 0 8 333 9) Open 42 0 5120) ∧
  (native_event 1%positive (MessageReceived 66 3)
     (run_actions [ASendMessage 1%positive 55 1024; ASetUserData 1%positive 5]
        (mrsDataChannelRegisterCallbacks 1%positive (mkCallbacks 111 7 0 8 333 9) reg1)).1).2
    = [Callback 1%positive (CallMessage 111 7 66 3)] ∧
  (native_event 1%positive (BufferingChanged 0 10 5120)
     (run_actions []
        (mrsDataChannelRegisterCallbacks 1%positive (mkCallbacks 111 7 0 8 333 9) reg1)).1).2
    = [] ∧
  callbacks_of 1%positive
    (run_actions
       [ASendMessage 1%positive 55 1024; ANativeEvent 1%positive (MessageReceived 66 3);
        ARegisterCallbacks 1%positive no_callbacks;
        ANativeEvent 1%positive (StateChanged Closed 42)]
       (mrsDataChannelRegisterCallbacks 1%positive (mkCallbacks 0 1 0 2 0 3) reg1)).2 = [].
Proof.
  pose proof (C9_register_replaces_and_silences 1%positive
           (mkChannel 0 (mkCallbacks 100 1 200 2 300 3) Open 42 0 5120)
           (mkCallbacks 0 1 0 2 0 3)
           [ASendMessage 1%positive 55 1024; ANativeEvent 1%positive (MessageReceived 66 3);
            ARegisterCallbacks 1%positive no_callbacks;
            ANativeEvent 1%positive (StateChanged Closed 42)]
           reg1 eq_refl eq_refl eq_refl)
    as (Hstore & _ & _ & _ & Hmsg & Hbuf & _ & Hsilent).
  split; [reflexivity|]. split; [reflexivity|].
  split; [exact (Hstore (mkCallbacks 111 7 0 8 333 9))|].
  split; [exact (Hmsg (mkCallbacks 111 7 0 8 333 9)
                   [ASendMessage 1%positive 55 1024; ASetUserData 1%positive 5]
                   66%Z 3%N eq_refl)|].
  split; [exact (Hbuf (mkCallbacks 111 7 0 8 333 9) [] 0%N 10%N 5120%N eq_refl)|].
  exact Hsilent.
Defined.

(** The scenario of the spec: ten sends of 1 KB on an open channel of
    capacity 5 KB that never drains.  Five are accepted, each reported to the
    buffering callback; the sixth gets the capacity error and the state
    callback reports the closure; the rest find the channel not open. *)
Example ten_sends_on_a_5KB_channel :
  (run_actions (replicate 10 (ASendMessage 1%positive 55 1024)) reg1).2 =
  [NativeSend 1%positive 55 1024; Callback 1%positive (CallBuffering 200 2 0 1024 5120);
   NativeSend 1%positive 55 1024; Callback 1%positive (CallBuffering 200 2 1024 2048 5120);
   NativeSend 1%positive 55 1024; Callback 1%positive (CallBuffering 200 2 2048 3072 5120);
   NativeSend 1%positive 55 1024; Callback 1%positive (CallBuffering 200 2 3072 4096 5120);
   NativeSend 1%positive 55 1024; Callback 1%positive (CallBuffering 200 2 4096 5120 5120);
   NativeSend 1%positive 55 1024; Callback 1%positive (CallState 300 3 Closed 42)].
Proof. vm_compute. reflexivity. Qed.

End DataChannelFacts.

(** ** Whole lifetimes of a track source *)

Lemma deletions_app tr1 tr2 : deletions (tr1 ++ tr2) = deletions tr1 + deletions tr2.
Proof. unfold deletions. by rewrite List.filter_app, length_app. Qed.

Lemma deletions_caller_events tr : deletions (caller_events tr) = deletions tr.
Proof.
  unfold deletions. rewrite filter_caller_events; [done|]. by intros [].
Qed.

(** Brings the counts of a trace built from deliveries and single events to
    numerals. *)
Ltac count_trace :=
  try rewrite <- registrations_caller_events;
  try rewrite <- removals_caller_events;
  try rewrite <- constructions_caller_events;
  try rewrite <- deletions_caller_events;
  caller_trace;
  cbn [registrations removals constructions deletions List.filter length
       is_registration is_removal is_construction is_deletion].

(** Shows that no delivery of a trace built from deliveries and single
    events reaches a destroyed observer, from the facts at hand. *)
Ltac safe_trace :=
  rewrite ?use_after_frees_app;
  rewrite ?deliver_frames_no_use_after_free
    by (proj_simpl; rewrite ?dom_insert_L, ?dom_delete_L; set_solver);
  reflexivity.

Lemma Ledger_nil s : Inv s → Ledger s [] s.
Proof. intros HI. by split. Qed.

Lemma Ledger_app s tr1 s' tr2 s'' :
  Ledger s tr1 s' → Ledger s' tr2 s'' → Ledger s (tr1 ++ tr2) s''.
Proof.
  intros [_ Hs1 Hr1 Hc1 Ho1] [HI Hs2 Hr2 Hc2 Ho2]. split.
  - done.
  - by rewrite use_after_frees_app, Hs1, Hs2.
  - rewrite registrations_app, removals_app. lia.
  - rewrite constructions_app, deletions_app. lia.
  - by rewrite Ho2.
Qed.

Lemma deliver_Ledger s fs : Inv s → Ledger s (deliver_frames s fs) s.
Proof.
  intros HI. pose proof (Inv_no_dangling s HI). split; [done| |..|done].
  - by apply deliver_frames_no_use_after_free.
  - count_trace. done.
  - count_trace. done.
Qed.

Lemma SetCallback_Ledger s cb sched :
  Inv s → ∃ c', run (SetCallback cb) s sched = Some (tt, c') ∧ Ledger s (trace c') (st c').
Proof.
  intros HI. pose proof (inv_mutex s HI) as Hmut.
  pose proof (Inv_no_dangling s HI) as Hnd.
  destruct (fresh_addr_spec s) as (Hfh & Hff & Hfs).
  destruct (is_set cb) eqn:Hcb, (observer_ s) as [p|] eqn:Hobs.
  - eexists; split; [apply SetCallback_update; eauto using Inv_live|].
    cbn [st trace]. split.
    + by apply Inv_updated.
    + safe_trace.
    + count_trace. unfold attached. proj_simpl. by rewrite Hobs.
    + count_trace. unfold attached. proj_simpl. by rewrite Hobs.
    + unfold other_sinks. proj_simpl. by rewrite Hobs.
  - eexists; split; [by apply SetCallback_attach|].
    cbn [st trace]. split.
    + by apply Inv_attached.
    + safe_trace.
    + count_trace. unfold attached. proj_simpl. by rewrite Hobs.
    + count_trace. unfold attached. proj_simpl. by rewrite Hobs.
    + unfold other_sinks. proj_simpl. rewrite Hobs.
      apply delete_insert_id. by apply not_elem_of_dom.
  - eexists; split; [apply SetCallback_detach; eauto using Inv_live|].
    cbn [st trace]. split.
    + apply (Inv_fields (destroy_observer p (remove_sink p s))); [|done..].
      by apply Inv_destroyed.
    + safe_trace.
    + count_trace. unfold attached. proj_simpl. by rewrite Hobs.
    + count_trace. unfold attached. proj_simpl. by rewrite Hobs.
    + unfold other_sinks. proj_simpl. by rewrite Hobs.
  - eexists; split; [by apply SetCallback_noop|].
    cbn [st trace]. split.
    + done.
    + safe_trace.
    + count_trace. done.
    + count_trace. done.
    + done.
Qed.

Lemma destructor_Ledger s sched :
  Inv s →
  ∃ c', run destructor s sched = Some (tt, c') ∧ Ledger s (trace c') (st c') ∧
        observer_ (st c') = None.
Proof.
  intros HI. pose proof (Inv_no_dangling s HI) as Hnd.
  destruct (observer_ s) as [p|] eqn:Hobs.
  - eexists; split; [apply destructor_attached; eauto using Inv_live|].
    cbn [st trace]. split; [split|done].
    + by apply Inv_destroyed.
    + safe_trace.
    + count_trace. unfold attached. proj_simpl. by rewrite Hobs.
    + count_trace. unfold attached. proj_simpl. by rewrite Hobs.
    + unfold other_sinks. proj_simpl. by rewrite Hobs.
  - eexists; split; [by apply destructor_detached|].
    cbn [st trace]. split; [split|done].
    + done.
    + safe_trace.
    + count_trace. done.
    + count_trace. done.
    + done.
Qed.

Lemma run_ops_Ledger ops : ∀ s,
  Inv s → ∃ s' tr, run_ops ops s = Some (s', tr) ∧ Ledger s tr s'.
Proof.
  induction ops as [|o ops IH]; intros s HI.
  - exists s, []. split; [done|]. by apply Ledger_nil.
  - destruct o as [cb sched|fs]; cbn [run_ops run_op].
    + destruct (SetCallback_Ledger s cb sched HI) as (c' & Hrun & HL).
      destruct (IH _ (ledger_inv _ _ _ HL)) as (s' & tr & Hops & HL').
      rewrite Hrun. cbn [mbind option_bind fst snd]. rewrite Hops.
      eexists _, _. split; [done|]. cbn [fst snd]. by eapply Ledger_app.
    + destruct (IH _ HI) as (s' & tr & Hops & HL').
      cbn [mbind option_bind fst snd]. rewrite Hops.
      eexists _, _. split; [done|]. cbn [fst snd].
      eapply Ledger_app; [by apply deliver_Ledger|done].
Qed.

Lemma lifetime_Ledger ops sched s :
  Inv s →
  ∃ s' tr, lifetime ops sched s = Some (s', tr) ∧ Ledger s tr s' ∧ observer_ s' = None.
Proof.
  intros HI. unfold lifetime.
  destruct (run_ops_Ledger ops s HI) as (s1 & tr1 & Hops & HL1).
  destruct (destructor_Ledger s1 sched (ledger_inv _ _ _ HL1)) as (c' & Hd & HL2 & Hobs).
  rewrite Hops. cbn [mbind option_bind fst snd]. rewrite Hd.
  eexists _, _. split; [done|]. cbn [snd]. split; [|done]. by eapply Ledger_app.
Qed.

Lemma VideoTrackSource_ctor_Some ty source s :
  VideoTrackSource_ctor ty source = Some s →
  ∃ sinks, source = Some sinks ∧ s = VideoTrackSource sinks ∧
           (ty = kDeviceVideoTrackSource ∨ ty = kExternalVideoTrackSource).
Proof.
  unfold VideoTrackSource_ctor, RTC_CHECK. destruct source as [sinks|]; [|done].
  rewrite (bool_decide_eq_true_2 (is_Some (Some sinks))) by done.
  cbn [mbind option_bind].
  destruct ty; cbn; try done; intros [= <-]; exists sinks; auto.
Qed.

Lemma VideoTrackSource_ctor_Inv ty source s :
  VideoTrackSource_ctor ty source = Some s → Inv s ∧ observer_ s = None.
Proof.
  intros Hc. apply VideoTrackSource_ctor_Some in Hc as (sinks & _ & -> & _).
  split; [apply Inv_init|done].
Qed.

(** X2. Over the whole life of a track source, from a successful
    construction through any sequence of [SetCallback] calls and frame
    deliveries to the destructor, under any schedule of the native thread:
    every call returns, no frame is ever delivered to a destroyed observer,
    and after the destructor no delivery reaches an observer of the track
    source. *)
Theorem X2_lifetime_memory_safe ty source s ops sched :
  VideoTrackSource_ctor ty source = Some s →
  ∃ s' tr,
    lifetime ops sched s = Some (s', tr) ∧
    use_after_frees tr = [] ∧
    (∀ fs, deliver_frames s' fs = []).
Proof.
  intros Hc. apply VideoTrackSource_ctor_Inv in Hc as [HI _].
  destruct (lifetime_Ledger ops sched s HI) as (s' & tr & Hl & HL & Hobs).
  exists s', tr. split; [done|]. split; [by apply (ledger_safe _ _ _ HL)|].
  intros fs. apply deliver_frames_quiet, Inv_detached_quiet; [|done].
  by apply (ledger_inv _ _ _ HL).
Qed.

Lemma X2_lifetime_memory_safe_witness :
  VideoTrackSource_ctor kDeviceVideoTrackSource (Some ∅) = Some s0 ∧
  ∃ s' tr,
    lifetime [OpSetCallback cb1 sched6; OpDeliver [7; 8]%Z; OpSetCallback cb2 sched6]
      sched6 s0 = Some (s', tr) ∧
    use_after_frees tr = [] ∧
    (∀ fs, deliver_frames s' fs = []).
Proof.
  split; [reflexivity|].
  apply (X2_lifetime_memory_safe kDeviceVideoTrackSource (Some ∅) s0
           [OpSetCallback cb1 sched6; OpDeliver [7; 8]%Z; OpSetCallback cb2 sched6]
           sched6).
  reflexivity.
Defined.

(** X3. Registrations and removals are balanced.  After any sequence of
    [SetCallback] calls and frame deliveries on a new track source, the
    number of [AddOrUpdateSink] calls made exceeds the number of [RemoveSink]
    calls by one when an observer is attached and equals it otherwise, and
    the same holds for observers constructed and destroyed: never two
    registrations or two observers outstanding.  After the destructor both
    pairs of counts are equal: nothing stays registered, nothing leaks. *)
Theorem X3_registrations_balanced ty source s ops sched :
  VideoTrackSource_ctor ty source = Some s →
  ∃ s1 tr1 s2 tr2,
    run_ops ops s = Some (s1, tr1) ∧
    registrations tr1 = removals tr1 + attached s1 ∧
    constructions tr1 = deletions tr1 + attached s1 ∧
    attached s1 ≤ 1 ∧
    lifetime ops sched s = Some (s2, tr2) ∧
    registrations tr2 = removals tr2 ∧
    constructions tr2 = deletions tr2.
Proof.
  intros Hc. apply VideoTrackSource_ctor_Inv in Hc as [HI Hobs].
  assert (attached s = 0) as Hs by (unfold attached; by rewrite Hobs).
  destruct (run_ops_Ledger ops s HI) as (s1 & tr1 & Hops & HL1).
  destruct (lifetime_Ledger ops sched s HI) as (s2 & tr2 & Hl & HL2 & Hobs2).
  assert (attached s2 = 0) as Hs2 by (unfold attached; by rewrite Hobs2).
  exists s1, tr1, s2, tr2.
  pose proof (ledger_sinks _ _ _ HL1). pose proof (ledger_observers _ _ _ HL1).
  pose proof (ledger_sinks _ _ _ HL2). pose proof (ledger_observers _ _ _ HL2).
  repeat split; try done; try lia.
  unfold attached. destruct (observer_ s1); lia.
Qed.

Lemma X3_registrations_balanced_witness :
  VideoTrackSource_ctor kExternalVideoTrackSource (Some ∅) = Some s0 ∧
  ∃ s1 tr1 s2 tr2,
    run_ops [OpSetCallback cb1 sched6; OpSetCallback null_callback []; OpSetCallback cb2 []]
      s0 = Some (s1, tr1) ∧
    registrations tr1 = removals tr1 + attached s1 ∧
    constructions tr1 = deletions tr1 + attached s1 ∧
    attached s1 ≤ 1 ∧
    lifetime [OpSetCallback cb1 sched6; OpSetCallback null_callback []; OpSetCallback cb2 []]
      sched6 s0 = Some (s2, tr2) ∧
    registrations tr2 = removals tr2 ∧
    constructions tr2 = deletions tr2.
Proof.
  split; [reflexivity|].
  apply (X3_registrations_balanced kExternalVideoTrackSource (Some ∅) s0
           [OpSetCallback cb1 sched6; OpSetCallback null_callback []; OpSetCallback cb2 []]
           sched6).
  reflexivity.
Defined.

(** X4. The sinks of others are never touched.  After any sequence of
    [SetCallback] calls and frame deliveries on a track source constructed
    on a native source with sink table [sinks], every sink of [sinks] is
    still registered with the wants it had, and the table differs from
    [sinks] by at most the observer of the track source; after the
    destructor the table is [sinks] again. *)
Theorem X4_other_sinks_untouched ty sinks s ops sched :
  VideoTrackSource_ctor ty (Some sinks) = Some s →
  ∃ s1 tr1 s2 tr2,
    run_ops ops s = Some (s1, tr1) ∧
    other_sinks s1 = sinks ∧
    (∀ q w, sinks !! q = Some w → source_ s1 !! q = Some w) ∧
    lifetime ops sched s = Some (s2, tr2) ∧
    source_ s2 = sinks.
Proof.
  intros Hc. pose proof (VideoTrackSource_ctor_Inv _ _ _ Hc) as [HI Hobs].
  apply VideoTrackSource_ctor_Some in Hc as (sinks' & [= <-] & -> & _).
  destruct (run_ops_Ledger ops _ HI) as (s1 & tr1 & Hops & HL1).
  destruct (lifetime_Ledger ops sched _ HI) as (s2 & tr2 & Hl & HL2 & Hobs2).
  exists s1, tr1, s2, tr2.
  pose proof (ledger_others _ _ _ HL1) as Ho1.
  pose proof (ledger_others _ _ _ HL2) as Ho2.
  unfold other_sinks in Ho1 at 2. unfold other_sinks in Ho2 at 2.
  cbn in Ho1, Ho2.
  split; [done|]. split; [done|]. split; [|split; [done|]].
  - intros q w Hq. rewrite <- Ho1 in Hq. unfold other_sinks in Hq.
    destruct (observer_ s1) as [p|]; [|done].
    apply lookup_delete_Some in Hq as [_ Hq]. done.
  - unfold other_sinks in Ho2. by rewrite Hobs2 in Ho2.
Qed.

Lemma X4_other_sinks_untouched_witness :
  VideoTrackSource_ctor kDeviceVideoTrackSource
    (Some {[5%positive := mkVideoSinkWants false]})
  = Some (VideoTrackSource {[5%positive := mkVideoSinkWants false]}) ∧
  ∃ s1 tr1 s2 tr2,
    run_ops [OpSetCallback cb1 sched6; OpDeliver [7]%Z]
      (VideoTrackSource {[5%positive := mkVideoSinkWants false]}) = Some (s1, tr1) ∧
    other_sinks s1 = {[5%positive := mkVideoSinkWants false]} ∧
    (∀ q w, ({[5%positive := mkVideoSinkWants false]} : gmap addr VideoSinkWants) !! q
              = Some w → source_ s1 !! q = Some w) ∧
    lifetime [OpSetCallback cb1 sched6; OpDeliver [7]%Z] sched6
      (VideoTrackSource {[5%positive := mkVideoSinkWants false]}) = Some (s2, tr2) ∧
    source_ s2 = {[5%positive := mkVideoSinkWants false]}.
Proof.
  split; [reflexivity|].
  apply (X4_other_sinks_untouched kDeviceVideoTrackSource
           {[5%positive := mkVideoSinkWants false]}
           (VideoTrackSource {[5%positive := mkVideoSinkWants false]})
           [OpSetCallback cb1 sched6; OpDeliver [7]%Z] sched6).
  reflexivity.
Defined.

(** ** Which callback the frames reach *)

Lemma list_bind_single {A B} (g : A → list B) (l : list A) (p : A) :
  NoDup l → p ∈ l → (∀ x, x ∈ l → x ≠ p → g x = []) → l ≫= g = g p.
Proof.
  induction 1 as [|x l Hx Hnd IH]; intros Hp Hg.
  - by apply elem_of_nil in Hp.
  - rewrite bind_cons. apply elem_of_cons in Hp as [<-|Hp].
    + rewrite list_bind_nil, app_nil_r; [done|].
      intros y Hy. apply Hg; [by right|]. intros ->. done.
    + rewrite (Hg x); [|by left|by intros ->]. simpl.
      apply IH; [done|]. intros y Hy. apply Hg. by right.
Qed.

(** When the one live observer [p] is registered and no destroyed observer
    is, a delivery reaches [p] and nothing else of the track source. *)
Lemma deliver_frames_attached s p fs :
  dom (heap s) = {[p]} →
  dom (source_ s) ∩ (dom (heap s) ∪ freed s) = dom (heap s) →
  deliver_frames s fs = fs ≫= (λ f, OnFrame s f p).
Proof.
  intros Ho Hr. unfold deliver_frames.
  induction fs as [|f fs IH]; [done|].
  rewrite !bind_cons, IH. f_equal.
  unfold deliver_frame. apply list_bind_single.
  - apply NoDup_fst_map_to_list.
  - assert (p ∈ dom (source_ s)) as Hp by set_solver.
    apply elem_of_dom in Hp as [w Hw].
    apply list_elem_of_fmap. exists (p, w). split; [done|].
    by apply elem_of_map_to_list.
  - intros q Hq Hne.
    apply list_elem_of_fmap in Hq as [[q' w] [-> Hq]]; simpl in *.
    apply elem_of_map_to_list in Hq.
    assert (q' ∈ dom (source_ s)) as Hdom by (apply elem_of_dom; eauto).
    unfold OnFrame.
    destruct (heap s !! q') as [obs|] eqn:Hheap.
    + assert (q' ∈ dom (heap s)) by (apply elem_of_dom; eauto). set_solver.
    + rewrite bool_decide_eq_false_2; [done|]. set_solver.
Qed.

Lemma deliver_frames_to_callback s p cb fs :
  dom (heap s) = {[p]} →
  dom (source_ s) ∩ (dom (heap s) ∪ freed s) = dom (heap s) →
  heap s !! p = Some (mkVideoFrameObserver cb) →
  deliver_frames s fs =
  if is_set cb then EvFrameCallback p cb <$> fs else [].
Proof.
  intros Ho Hr Hheap. rewrite (deliver_frames_attached s p) by done.
  unfold OnFrame. rewrite Hheap. simpl.
  destruct (is_set cb).
  - induction fs as [|f fs IH]; [done|]. rewrite bind_cons, IH. done.
  - induction fs as [|f fs IH]; [done|]. by rewrite bind_cons, IH.
Qed.

Lemma Inv_attached_owned s p : Inv s → observer_ s = Some p → dom (heap s) = {[p]}.
Proof. intros HI Hobs. rewrite (inv_owned s HI), Hobs. done. Qed.

(** X5. After [SetCallback] with a non-null callback [cb] returns, whether
    it attached a new observer or replaced the callback of the attached one,
    every frame the native source delivers invokes [cb] exactly once, in
    the order of delivery, and nothing else of the track source: the
    callback registered before, if any, is not invoked any more. *)
Theorem X5_frames_reach_latest_callback s cb sched fs :
  Inv s → is_set cb = true →
  ∃ c' p,
    run (SetCallback cb) s sched = Some (tt, c') ∧
    observer_ (st c') = Some p ∧
    deliver_frames (st c') fs = EvFrameCallback p cb <$> fs.
Proof.
  intros HI Hcb. pose proof (inv_mutex s HI) as Hmut.
  destruct (observer_ s) as [p|] eqn:Hobs.
  - eexists _, p. split; [apply SetCallback_update; eauto using Inv_live|].
    cbn [st]. split; [done|].
    pose proof (Inv_updated s cb p HI Hobs) as HI'.
    rewrite (deliver_frames_to_callback _ p cb).
    + by rewrite Hcb.
    + by apply (Inv_attached_owned _ p HI').
    + by apply (inv_registered _ HI').
    + proj_simpl. by rewrite lookup_insert_eq.
  - eexists _, (fresh_addr s). split; [by apply SetCallback_attach|].
    cbn [st]. split; [done|].
    pose proof (Inv_attached s cb HI Hobs) as HI'. cbn zeta in HI'.
    rewrite (deliver_frames_to_callback _ (fresh_addr s) cb).
    + by rewrite Hcb.
    + by apply (Inv_attached_owned _ _ HI').
    + by apply (inv_registered _ HI').
    + proj_simpl. by rewrite lookup_insert_eq.
Qed.

Lemma X5_frames_reach_latest_callback_witness :
  Inv s1 ∧ is_set cb2 = true ∧
  ∃ c' p,
    run (SetCallback cb2) s1 sched6 = Some (tt, c') ∧
    observer_ (st c') = Some p ∧
    deliver_frames (st c') [7; 8]%Z = EvFrameCallback p cb2 <$> [7; 8]%Z.
Proof.
  split; [exact Inv_s1|]. split; [reflexivity|].
  apply (X5_frames_reach_latest_callback s1 cb2 sched6 [7; 8]%Z).
  - exact Inv_s1.
  - reflexivity.
Defined.

(** X6. The last registration wins.  Registering [cb] and then [cb'], both
    non-null, leaves the track source in the very state that registering
    [cb'] alone does, whatever the native thread delivers meanwhile: the same
    observer, the same sink table, and [cb'] stored. *)
Theorem X6_last_registration_wins s cb cb' sched1 sched2 sched3 :
  Inv s → is_set cb = true → is_set cb' = true →
  ∃ c1 c2 c3,
    run (SetCallback cb) s sched1 = Some (tt, c1) ∧
    run (SetCallback cb') (st c1) sched2 = Some (tt, c2) ∧
    run (SetCallback cb') s sched3 = Some (tt, c3) ∧
    st c2 = st c3.
Proof.
  intros HI Hcb Hcb'. pose proof (inv_mutex s HI) as Hmut.
  destruct (observer_ s) as [p|] eqn:Hobs.
  - eexists _, _, _.
    split; [apply SetCallback_update; eauto using Inv_live|].
    split; [apply (SetCallback_update _ _ _ p); try done;
            proj_simpl; by rewrite lookup_insert_eq|].
    split; [apply SetCallback_update; eauto using Inv_live|].
    cbn [st]. unfold set_mutex, store_callback. proj_simpl.
    by rewrite insert_insert_eq.
  - eexists _, _, _.
    split; [by apply SetCallback_attach|].
    split; [apply (SetCallback_update _ _ _ (fresh_addr s)); try done;
            proj_simpl; by rewrite lookup_insert_eq|].
    split; [by apply SetCallback_attach|].
    cbn [st]. unfold set_mutex, store_callback, add_sink, own_new_observer. proj_simpl.
    by rewrite !insert_insert_eq.
Qed.

Lemma X6_last_registration_wins_witness :
  Inv s0 ∧ is_set cb1 = true ∧ is_set cb2 = true ∧
  ∃ c1 c2 c3,
    run (SetCallback cb1) s0 sched6 = Some (tt, c1) ∧
    run (SetCallback cb2) (st c1) [] = Some (tt, c2) ∧
    run (SetCallback cb2) s0 sched6 = Some (tt, c3) ∧
    st c2 = st c3.
Proof.
  split; [exact Inv_s0|]. split; [reflexivity|]. split; [reflexivity|].
  apply (X6_last_registration_wins s0 cb1 cb2 sched6 [] sched6).
  - exact Inv_s0.
  - reflexivity.
  - reflexivity.
Defined.

(** X7. While [SetCallback] attaches a non-null callback [cb] to a detached
    track source, no frame callback is invoked before [cb] is stored in the
    new observer: frames the native thread delivers earlier, also those
    delivered once the observer is registered, are dropped.  The only frames
    that invoke anything during the call are those delivered between the
    store and the release of the mutex, and they invoke [cb]. *)
Theorem X7_no_callback_before_store s cb sched :
  Inv s → observer_ s = None → is_set cb = true →
  let p := fresh_addr s in
  ∃ c' pre,
    run (SetCallback cb) s sched = Some (tt, c') ∧
    trace c' = pre ++ [EvObserverSetCallback p cb] ++
               (EvFrameCallback p cb <$> slot sched 4) ++ [EvUnlock] ∧
    delivery_events pre = [] ∧
    registrations pre = 1.
Proof.
  intros HI Hobs Hcb p. pose proof (inv_mutex s HI) as Hmut.
  pose proof (Inv_detached_quiet s HI Hobs) as Hquiet.
  destruct (fresh_addr_spec s) as (Hfh & Hff & Hfs). fold p in Hfh, Hff, Hfs.
  pose proof (inv_owned s HI) as Ho. rewrite Hobs in Ho. simpl in Ho.
  exists (mkConfig
            (set_mutex false (store_callback p cb (add_sink p (mkVideoSinkWants true)
               (own_new_observer p (set_mutex true s)))))
            (Nat.iter 5 tail sched)
            ([EvLock; EvNew p; EvAddOrUpdateSink p (mkVideoSinkWants true);
              EvObserverSetCallback p cb] ++
             (EvFrameCallback p cb <$> slot sched 4) ++ [EvUnlock])),
         [EvLock; EvNew p; EvAddOrUpdateSink p (mkVideoSinkWants true)].
  split; [|done].
  rewrite SetCallback_attach by done. fold p.
  rewrite (deliver_frames_quiet s) by done.
  rewrite (deliver_frames_quiet (set_mutex true s)) by done.
  rewrite (deliver_frames_quiet (own_new_observer p (set_mutex true s)))
    by (proj_simpl; rewrite dom_insert_L; set_solver).
  rewrite (deliver_frames_to_callback
             (add_sink p (mkVideoSinkWants true) (own_new_observer p (set_mutex true s)))
             p null_callback);
    [|proj_simpl; rewrite ?dom_insert_L; set_solver..
     |proj_simpl; by rewrite lookup_insert_eq].
  rewrite (deliver_frames_to_callback
             (store_callback p cb (add_sink p (mkVideoSinkWants true)
                (own_new_observer p (set_mutex true s)))) p cb);
    [|proj_simpl; rewrite ?dom_insert_L; set_solver..
     |proj_simpl; by rewrite lookup_insert_eq].
  rewrite Hcb. reflexivity.
Qed.

Lemma X7_no_callback_before_store_witness :
  Inv s0 ∧ observer_ s0 = None ∧ is_set cb1 = true ∧
  let p := fresh_addr s0 in
  ∃ c' pre,
    run (SetCallback cb1) s0 sched6 = Some (tt, c') ∧
    trace c' = pre ++ [EvObserverSetCallback p cb1] ++
               (EvFrameCallback p cb1 <$> slot sched6 4) ++ [EvUnlock] ∧
    delivery_events pre = [] ∧
    registrations pre = 1.
Proof.
  split; [exact Inv_s0|]. split; [reflexivity|]. split; [reflexivity|].
  apply (X7_no_callback_before_store s0 cb1 sched6).
  - exact Inv_s0.
  - reflexivity.
  - reflexivity.
Defined.

(** ** Sequences of calls on an adapter *)

Lemma adapter_run_app dcheck_is_on ops1 ops2 a :
  adapter_run dcheck_is_on (ops1 ++ ops2) a =
  adapter_run dcheck_is_on ops1 a ≫= adapter_run dcheck_is_on ops2.
Proof.
  revert a. induction ops1 as [|op ops1 IH]; intros a; [done|].
  simpl. destruct (adapter_step dcheck_is_on op a) as [a1|]; [|done].
  simpl. apply IH.
Qed.

Lemma adapter_step_release op a : ∃ a', adapter_step false op a = Some a'.
Proof. destruct op; simpl; eauto. Qed.

Lemma adapter_step_checked op a a' :
  adapter_step true op a = Some a' → adapter_step false op a = Some a'.
Proof.
  destruct op as [o|o]; simpl; [done|].
  unfold VideoSourceAdapter.UnregisterObserver, VideoSourceAdapter.RTC_DCHECK_EQ.
  simpl. by case_bool_decide.
Qed.

Lemma adapter_unregister_checked o a a' :
  VideoSourceAdapter.UnregisterObserver true o a = Some a' →
  VideoSourceAdapter.observer_ a = o ∧ a' = VideoSourceAdapter.mk None.
Proof.
  unfold VideoSourceAdapter.UnregisterObserver, VideoSourceAdapter.RTC_DCHECK_EQ.
  simpl. case_bool_decide; [|done]. by intros [= <-].
Qed.

Lemma adapter_run_release ops : ∀ a, is_Some (adapter_run false ops a).
Proof.
  induction ops as [|op ops IH]; intros a; [by eexists|].
  simpl. destruct (adapter_step_release op a) as [a1 ->]. simpl. apply IH.
Qed.

(** X8. The check in [UnregisterObserver] only ever aborts: whenever a
    sequence of [RegisterObserver] and [UnregisterObserver] calls runs
    through with the check compiled in, it runs through with the check
    compiled out and leaves the adapter in the same state; with the check
    compiled out every sequence runs through. *)
Theorem X8_check_only_aborts ops a a' :
  adapter_run true ops a = Some a' →
  adapter_run false ops a = Some a' ∧
  (∀ ops0 a0, is_Some (adapter_run false ops0 a0)).
Proof.
  intros Hrun. split.
  - revert a Hrun. induction ops as [|op ops IH]; intros a Hrun; [done|].
    simpl in *. destruct (adapter_step true op a) as [a1|] eqn:Hstep; [|done].
    rewrite (adapter_step_checked _ _ _ Hstep). simpl in *. by apply IH.
  - intros ops0 a0. apply adapter_run_release.
Qed.

Lemma X8_check_only_aborts_witness :
  adapter_run true [AdRegister (Some 1%positive); AdUnregister (Some 1%positive);
                    AdRegister (Some 2%positive)] (VideoSourceAdapter.mk None)
  = Some (VideoSourceAdapter.mk (Some 2%positive)) ∧
  adapter_run false [AdRegister (Some 1%positive); AdUnregister (Some 1%positive);
                     AdRegister (Some 2%positive)] (VideoSourceAdapter.mk None)
  = Some (VideoSourceAdapter.mk (Some 2%positive)).
Proof.
  split; [reflexivity|].
  apply (X8_check_only_aborts
           [AdRegister (Some 1%positive); AdUnregister (Some 1%positive);
            AdRegister (Some 2%positive)]
           (VideoSourceAdapter.mk None) (VideoSourceAdapter.mk (Some 2%positive))).
  reflexivity.
Defined.

(** X9. An adapter holds one observer, and unregistration is not
    idempotent.  With the check compiled in, any sequence of calls aborts
    that contains two [UnregisterObserver] calls in a row for the same
    non-null observer, or a [RegisterObserver o1], a [RegisterObserver o2]
    and an [UnregisterObserver o1] in a row with [o1] different from [o2]:
    the second registration has replaced the first.  With the check compiled
    out the same calls go through and leave no observer registered, so [o2]
    is dropped without notice. *)
Theorem X9_single_observer_slot o o1 o2 ops ops' a :
  o ≠ None → o1 ≠ o2 →
  adapter_run true (ops ++ [AdUnregister o; AdUnregister o] ++ ops') a = None ∧
  adapter_run true (ops ++ [AdRegister o1; AdRegister o2; AdUnregister o1] ++ ops') a
    = None ∧
  adapter_run false (ops ++ [AdUnregister o; AdUnregister o]) a
    = Some (VideoSourceAdapter.mk None) ∧
  adapter_run false (ops ++ [AdRegister o1; AdRegister o2; AdUnregister o1]) a
    = Some (VideoSourceAdapter.mk None).
Proof.
  intros Ho Hne.
  destruct (adapter_run_release ops a) as [ar Har].
  repeat split.
  - rewrite !adapter_run_app.
    destruct (adapter_run true ops a) as [a1|]; [|done]. simpl.
    destruct (VideoSourceAdapter.UnregisterObserver true o a1) as [a2|] eqn:H1; [|done].
    apply adapter_unregister_checked in H1 as [_ ->]. simpl.
    unfold VideoSourceAdapter.UnregisterObserver, VideoSourceAdapter.RTC_DCHECK_EQ.
    simpl. rewrite bool_decide_eq_false_2; [done|]. by intros <-.
  - rewrite !adapter_run_app.
    destruct (adapter_run true ops a) as [a1|]; [|done]. simpl.
    unfold VideoSourceAdapter.UnregisterObserver, VideoSourceAdapter.RTC_DCHECK_EQ.
    simpl. rewrite bool_decide_eq_false_2; [done|]. by intros <-.
  - rewrite adapter_run_app, Har. done.
  - rewrite adapter_run_app, Har. done.
Qed.

Lemma X9_single_observer_slot_witness :
  Some 1%positive ≠ None ∧ Some 1%positive ≠ Some 2%positive ∧
  adapter_run true
    ([AdRegister (Some 1%positive)]
     ++ [AdUnregister (Some 1%positive); AdUnregister (Some 1%positive)] ++ [])
    (VideoSourceAdapter.mk None) = None ∧
  adapter_run true
    ([] ++ [AdRegister (Some 1%positive); AdRegister (Some 2%positive);
            AdUnregister (Some 1%positive)] ++ [])
    (VideoSourceAdapter.mk None) = None.
Proof.
  split; [discriminate|]. split; [discriminate|].
  split.
  - apply (X9_single_observer_slot (Some 1%positive) (Some 1%positive) (Some 2%positive)
             [AdRegister (Some 1%positive)] [] (VideoSourceAdapter.mk None));
      discriminate.
  - apply (X9_single_observer_slot (Some 1%positive) (Some 1%positive) (Some 2%positive)
             [] [] (VideoSourceAdapter.mk None)); discriminate.
Defined.
